(** * vispy scenegraph composition layer: a shallow embedding

    Sources embedded here:
    - [vispy/scene/visuals.py]: [VisualNode] (identifier allocation, the
      weak id registry, clippers, the propagating [picking] setter, the
      gated [draw]) and the class factory [create_visual_node];
    - [vispy/scene/transforms/transform.py]: the multiplication protocol of
      the [Transform] base class;
    - [vispy/plot/fig.py]: [Fig.__getitem__] and [Fig.plot_widgets].

    Python objects are modelled by explicit state: a scenegraph is a rose
    tree of node records, attribute writes that reach collaborators outside
    these files (filters, GL state, the drawable's own methods) are recorded
    as events in the order the code performs them, and class-level mutable
    state lives in a [World] record threaded through a small state-and-error
    monad. *)

From Stdlib Require Import ZArith String Ascii List Bool Sorted.
From stdpp Require Import base option list gmap strings.
Import ListNotations.
Open Scope Z_scope.
Open Scope string_scope.
Open Scope list_scope.

(** Identity of a heap object (what Python's [is] and default hashing see). *)
Definition addr := positive.

(** The opaque items handed to [attach] / [detach]. *)
Inductive item :=
| AlphaFilter                      (* Alpha() *)
| PickingFilterItem (id_ : Z)      (* PickingFilter(id_=...) *)
| ClipperItem (c : addr).          (* a clipper inherited from a parent *)

(** Python values that travel through the modelled code. *)
Inductive pyval :=
| PyNone
| PyBool (b : bool)
| PyInt (z : Z)
| PyStr (s : string)
| PyRef (a : addr).

(** What a drawable's own constructor does is opaque here; it is only told
    apart by a tag. *)
Definition drawable_event := nat.

(** Python exceptions. *)
Inductive exn :=
| RuntimeError (msg : string)
| OtherError (kind msg : string).

(** Calls that leave the modelled files, in program order. *)
Inductive event :=
| EvPickingFilterEnabled (self : addr) (p : bool) (* self._picking_filter.enabled = p *)
| EvUpdateGlState (self : addr) (blend : bool)    (* self.update_gl_state(blend=...) *)
| EvSuperclassDraw (cls : string) (self : addr)   (* self._visual_superclass.draw(self) *)
| EvAttach (self : addr) (it : item)              (* self.attach(...) *)
| EvDetach (self : addr) (it : item)              (* self.detach(...) *)
| EvSetName (self : addr) (name : pyval)          (* self.name = name *)
| EvNodeInit (self : addr) (parent name : pyval)  (* Node.__init__(self, ...) *)
| EvDrawable (self : addr) (e : drawable_event)   (* done by subclass.__init__ *)
| EvUnfreeze (self : addr)                        (* self.unfreeze() *)
| EvFreeze (self : addr).                         (* self.freeze() *)

Module Scene.

(** ** Node records and the scenegraph *)

(** The attributes of one [VisualNode] that the modelled methods read or
    write. *)
Record VisualNodeState := mkState {
  self_ : addr;                     (* the identity of the object *)
  _id : Z;                          (* self._id *)
  _visual_superclass : string;      (* name of the wrapped drawable class *)
  _picking : bool;                  (* self._picking *)
  _interactive : bool;              (* self._interactive *)
  _picking_filter_enabled : bool;   (* self._picking_filter.enabled *)
  gl_blend : bool;                  (* the blend entry of the GL state *)
  _clippers : gmap addr addr        (* self._clippers : child node -> clipper *)
}.

(** A node together with [self.children]. *)
#[local] Unset Elimination Schemes.
Inductive VisualNode :=
| Node (st : VisualNodeState) (children : list VisualNode).
#[local] Set Elimination Schemes.

Definition state (n : VisualNode) : VisualNodeState :=
  match n with Node st _ => st end.

Definition children (n : VisualNode) : list VisualNode :=
  match n with Node _ cs => cs end.

(** Every node strictly below [n], in pre-order. *)
Fixpoint descendants (n : VisualNode) : list VisualNode :=
  match n with
  | Node _ cs => flat_map (fun c => c :: descendants c) cs
  end.

(** ** The [picking] property *)

(** The three assignments after the early return of the setter. *)
Definition set_local_picking (p : bool) (st : VisualNodeState) : VisualNodeState :=
  {| self_ := self_ st;
     _id := _id st;
     _visual_superclass := _visual_superclass st;
     _picking := p;
     _interactive := _interactive st;
     _picking_filter_enabled := p;
     gl_blend := negb p;
     _clippers := _clippers st |}.

Definition local_picking_events (p : bool) (st : VisualNodeState) : list event :=
  [EvPickingFilterEnabled (self_ st) p; EvUpdateGlState (self_ st) (negb p)].

(** [VisualNode.picking.setter]: the [for] loop over the children comes
    first, then the comparison with the stored flag. The result is the
    updated subtree and the events in the order they happen. *)
Fixpoint picking_setter (p : bool) (n : VisualNode) : VisualNode * list event :=
  match n with
  | Node st cs =>
      let fix for_children (cs : list VisualNode) : list VisualNode * list event :=
        match cs with
        | [] => ([], [])
        | c :: rest =>
            let '(c', ev1) := picking_setter p c in
            let '(rest', ev2) := for_children rest in
            (c' :: rest', ev1 ++ ev2)
        end in
      let '(cs', evs) := for_children cs in
      if Bool.eqb (_picking st) p
      then (Node st cs', evs)
      else (Node (set_local_picking p st) cs', evs ++ local_picking_events p st)
  end.

(** The loop of the setter, named so that it can be reasoned about. *)
Fixpoint picking_children (p : bool) (cs : list VisualNode)
  : list VisualNode * list event :=
  match cs with
  | [] => ([], [])
  | c :: rest =>
      let '(c', ev1) := picking_setter p c in
      let '(rest', ev2) := picking_children p rest in
      (c' :: rest', ev1 ++ ev2)
  end.

(** ** [draw] *)

(** [VisualNode.draw]: the early return, else the drawable's own draw. *)
Definition draw (st : VisualNodeState) : list event :=
  if _picking st && negb (_interactive st)
  then []
  else [EvSuperclassDraw (_visual_superclass st) (self_ st)].

(** ** Clippers *)

(** [VisualNode._set_clipper(node, clipper)]; [None] is Python's [None]. *)
Definition _set_clipper (node : addr) (clipper : option addr)
    (st : VisualNodeState) : VisualNodeState * list event :=
  let '(clippers1, ev1) :=
    match _clippers st !! node with
    | Some old => (delete node (_clippers st), [EvDetach (self_ st) (ClipperItem old)])
    | None => (_clippers st, [])
    end in
  let '(clippers2, ev2) :=
    match clipper with
    | Some c => (<[node := c]> clippers1, [EvAttach (self_ st) (ClipperItem c)])
    | None => (clippers1, [])
    end in
  ({| self_ := self_ st;
      _id := _id st;
      _visual_superclass := _visual_superclass st;
      _picking := _picking st;
      _interactive := _interactive st;
      _picking_filter_enabled := _picking_filter_enabled st;
      gl_blend := gl_blend st;
      _clippers := clippers2 |}, ev1 ++ ev2).

End Scene.

Module Construction.

(** ** Process-wide state and the monad of the constructors *)

(** [_next_id] and [_visual_ids] are the two class attributes of
    [VisualNode]. [_visual_ids] is a [weakref.WeakValueDictionary]: its
    values are not counted as references, and the runtime discards an entry
    when its value is collected. [referenced] is the set of objects that
    client code (or a parent node) still holds; the registry never
    contributes to it. *)
Record World := mkWorld {
  _next_id : Z;
  _visual_ids : gmap Z addr;
  attrs : gmap (addr * string) pyval;   (* instance attributes *)
  live : gset addr;                     (* allocated and not yet collected *)
  referenced : gset addr;
  log : list event
}.

(** The state of a fresh interpreter after the class body of [VisualNode]
    ran: [_next_id = 1], an empty registry. *)
Definition initial_world : World :=
  {| _next_id := 1; _visual_ids := ∅; attrs := ∅;
     live := ∅; referenced := ∅; log := [] |}.

Inductive Result (A : Type) :=
| Return (a : A)
| Raise (e : exn).
Arguments Return {A} a.
Arguments Raise {A} e.

(** State and exceptions; effects performed before a [Raise] persist. *)
Definition M (A : Type) : Type := World -> Result A * World.

Definition ret {A} (a : A) : M A := fun w => (Return a, w).

Definition bind {A B} (m : M A) (k : A -> M B) : M B :=
  fun w =>
    match m w with
    | (Return a, w') => k a w'
    | (Raise e, w') => (Raise e, w')
    end.

Definition raise {A} (e : exn) : M A := fun w => (Raise e, w).

#[global] Instance M_ret : MRet M := @ret.
#[global] Instance M_bind : MBind M := fun A B k m => bind m k.
#[global] Instance M_throw : MThrow exn M := @raise.

Definition emit (e : event) : M unit := fun w =>
  (Return tt,
   {| _next_id := _next_id w; _visual_ids := _visual_ids w; attrs := attrs w;
      live := live w; referenced := referenced w; log := log w ++ [e] |}).

Definition emit_all (es : list event) : M unit := fun w =>
  (Return tt,
   {| _next_id := _next_id w; _visual_ids := _visual_ids w; attrs := attrs w;
      live := live w; referenced := referenced w; log := log w ++ es |}).

(** [self.<name> = v] *)
Definition setattr (self : addr) (name : string) (v : pyval) : M unit := fun w =>
  (Return tt,
   {| _next_id := _next_id w; _visual_ids := _visual_ids w;
      attrs := <[(self, name) := v]> (attrs w);
      live := live w; referenced := referenced w; log := log w |}).

(** [VisualNode._next_id] read *)
Definition read_next_id : M Z := fun w => (Return (_next_id w), w).

(** [VisualNode._visual_ids[i] = self] *)
Definition register (i : Z) (self : addr) : M unit := fun w =>
  (Return tt,
   {| _next_id := _next_id w; _visual_ids := <[i := self]> (_visual_ids w);
      attrs := attrs w;
      live := live w; referenced := referenced w; log := log w |}).

(** [VisualNode._next_id += 1] *)
Definition increment_next_id : M unit := fun w =>
  (Return tt,
   {| _next_id := _next_id w + 1; _visual_ids := _visual_ids w; attrs := attrs w;
      live := live w; referenced := referenced w; log := log w |}).

(** ** [VisualNode.__init__] *)

Definition VisualNode___init__ (self : addr) (parent name : pyval) : M unit :=
  emit (EvNodeInit self parent name) ;;
  setattr self "_interactive" (PyBool false) ;;
  emit (EvAttach self AlphaFilter) ;;
  i ← read_next_id ;
  setattr self "_id" (PyInt i) ;;
  register i self ;;
  increment_next_id ;;
  emit (EvAttach self (PickingFilterItem i)).

(** ** Classes and [create_visual_node] *)

(** A drawable class as the factory sees it: its name, the names of the
    classes in its method resolution order (what [issubclass] consults), its
    docstring and its constructor. The constructor either finishes or
    raises, after having done some drawable-level work. *)
Record pyclass := mkClass {
  __name__ : string;
  __mro__ : list string;
  __doc__ : option string;
  __init__ : addr -> list pyval -> gmap string pyval
             -> list drawable_event * option exn
}.

Definition issubclass (c : pyclass) (base : string) : bool :=
  existsb (String.eqb base) (__mro__ c).

(** [s.endswith(suffix)] *)
Definition endswith (s suffix : string) : bool :=
  (String.length suffix <=? String.length s)%nat
  && String.eqb
       (substring (String.length s - String.length suffix)
                  (String.length suffix) s)
       suffix.

(** [s[:-6]] *)
Definition drop_last6 (s : string) : string :=
  substring 0 (String.length s - 6) s.

Definition dquote : string := String (ascii_of_nat 34) EmptyString.

(** ['Class "%s" must end with Visual, and must subclass BaseVisual' % clsname] *)
Definition contract_message (clsname : string) : string :=
  String.append "Class "
    (String.append dquote
       (String.append clsname
          (String.append dquote
             " must end with Visual, and must subclass BaseVisual"))).

(** A class produced by [type(clsname, (VisualNode, subclass), {...})]. The
    generated [__init__] is a closure over [subclass], kept in
    [wrapped]. *)
Record NodeClass := mkNodeClass {
  node_name : string;
  node_bases : list string;
  node_doc : option string;
  wrapped : pyclass
}.

(** [kwargs.pop(key, None)] *)
Definition kwargs_pop (key : string) (kwargs : gmap string pyval)
  : pyval * gmap string pyval :=
  (default PyNone (kwargs !! key), delete key kwargs).

(** The drawable's constructor, run on the world: its work is logged and
    its exception, if any, propagates. *)
Definition call_subclass_init (subclass : pyclass) (self : addr)
    (args : list pyval) (kwargs : gmap string pyval) : M unit :=
  let '(work, outcome) := __init__ subclass self args kwargs in
  emit_all (map (EvDrawable self) work) ;;
  match outcome with
  | Some e => mthrow e
  | None => mret tt
  end.

(** The [__init__] defined inside [create_visual_node]. *)
Definition composite___init__ (subclass : pyclass) (self : addr)
    (args : list pyval) (kwargs : gmap string pyval) : M unit :=
  let '(parent, kwargs1) := kwargs_pop "parent" kwargs in
  let '(name, kwargs2) := kwargs_pop "name" kwargs1 in
  emit (EvSetName self name) ;;
  setattr self "_visual_superclass" (PyStr (__name__ subclass)) ;;
  call_subclass_init subclass self args kwargs2 ;;
  emit (EvUnfreeze self) ;;
  VisualNode___init__ self parent name ;;
  emit (EvFreeze self).

Section Factory.

(** [generate_docstring(subclass, clsname)] as the factory calls it, inside
    [try] / [except Exception]: [None] stands for any exception it raises.
    Its embedding is [Docstring.try_generate_docstring] below. *)
Variable generate_docstring : pyclass -> string -> option string.

(** The builtin call [type(clsname, (VisualNode, subclass), {...})]: the
    interpreter builds the class, or raises [TypeError] when the two bases
    admit no consistent method resolution order or have conflicting
    metaclasses or layouts. [None] stands for a class that was built. *)
Variable type_new : string -> pyclass -> option exn.

Definition create_visual_node (subclass : pyclass) : Result NodeClass :=
  let clsname := __name__ subclass in
  if negb (endswith clsname "Visual" && issubclass subclass "BaseVisual")
  then Raise (RuntimeError (contract_message clsname))
  else
    let clsname := drop_last6 clsname in
    let doc :=
      match generate_docstring subclass clsname with
      | Some d => Some d
      | None => __doc__ subclass
      end in
    match type_new clsname subclass with
    | Some e => Raise e
    | None =>
        Return {| node_name := clsname;
                  node_bases := ["VisualNode"; __name__ subclass];
                  node_doc := doc;
                  wrapped := subclass |}
    end.

End Factory.

(** Calling a produced class on a freshly allocated object [self]. *)
Definition instantiate (cls : NodeClass) (self : addr)
    (args : list pyval) (kwargs : gmap string pyval) : M unit :=
  composite___init__ (wrapped cls) self args kwargs.

End Construction.

Module Runtime.
Import Construction.

(** ** The life of node objects *)

(** What can happen to the world between two observations: client code
    instantiates a produced class (successfully, obtaining id [i], or with an
    exception), client code drops its last reference to an object, or the
    runtime collects an object nobody references. The source defines no
    operation that takes an entry out of [_visual_ids]. *)
Inductive label :=
| LConstruct (cls : NodeClass) (self : addr)
             (args : list pyval) (kwargs : gmap string pyval) (i : Z)
| LConstructFailed (cls : NodeClass) (self : addr)
             (args : list pyval) (kwargs : gmap string pyval) (e : exn)
| LRelease (a : addr)
| LCollect (a : addr).

(** A fresh object, referenced by the caller that is creating it. *)
Definition allocate (self : addr) (w : World) : World :=
  {| _next_id := _next_id w; _visual_ids := _visual_ids w; attrs := attrs w;
     live := {[self]} ∪ live w; referenced := {[self]} ∪ referenced w;
     log := log w |}.

Definition release (a : addr) (w : World) : World :=
  {| _next_id := _next_id w; _visual_ids := _visual_ids w; attrs := attrs w;
     live := live w; referenced := referenced w ∖ {[a]};
     log := log w |}.

(** Collection of [a]: the weak-value dictionary drops every entry whose
    value is [a]. *)
Definition collect (a : addr) (w : World) : World :=
  {| _next_id := _next_id w;
     _visual_ids := filter (fun kv => kv.2 ≠ a) (_visual_ids w);
     attrs := attrs w;
     live := live w ∖ {[a]}; referenced := referenced w;
     log := log w |}.

Inductive step : World -> label -> World -> Prop :=
| step_construct cls self args kwargs i w w' :
    self ∉ live w ->
    instantiate cls self args kwargs (allocate self w) = (Return tt, w') ->
    attrs w' !! (self, "_id") = Some (PyInt i) ->
    step w (LConstruct cls self args kwargs i) w'
| step_construct_failed cls self args kwargs e w w' :
    self ∉ live w ->
    instantiate cls self args kwargs (allocate self w) = (Raise e, w') ->
    step w (LConstructFailed cls self args kwargs e) w'
| step_release a w :
    step w (LRelease a) (release a w)
| step_collect a w :
    a ∈ live w ->
    a ∉ referenced w ->
    step w (LCollect a) (collect a w).

Inductive steps : World -> list label -> World -> Prop :=
| steps_nil w : steps w [] w
| steps_cons w l w1 ls w2 :
    step w l w1 -> steps w1 ls w2 -> steps w (l :: ls) w2.

(** The id handed out by a step, if it is a successful construction. *)
Definition assigned (l : label) : option Z :=
  match l with
  | LConstruct _ _ _ _ i => Some i
  | _ => None
  end.

Definition assigned_ids (ls : list label) : list Z := omap assigned ls.

Definition constructions (ls : list label) : nat :=
  length (filter (fun l => is_Some (assigned l)) ls).

(** Steps taken by the program, as opposed to the collector. *)
Definition program_step (l : label) : bool :=
  match l with
  | LCollect _ => false
  | _ => true
  end.

(** Registry lookup as the renderer performs it. *)
Definition lookup_visual (i : Z) (w : World) : option addr :=
  _visual_ids w !! i.

(** Every entry points to a live object and carries an id that was already
    handed out. *)
Definition registry_sound (w : World) : Prop :=
  forall i a, lookup_visual i w = Some a -> a ∈ live w /\ i < _next_id w.

(** The teardown discipline of explicit ownership: whenever an entry leaves
    the registry, it is a step of the program that took it out. *)
Definition deregistration_is_explicit : Prop :=
  forall ls w l w' i,
    steps initial_world ls w ->
    step w l w' ->
    is_Some (lookup_visual i w) ->
    lookup_visual i w' = None ->
    program_step l = true.

End Runtime.

Module Transforms.

(** ** The multiplication protocol of [Transform] *)

(** A transform object: an instance of a named class, or a chain built by
    [ChainTransform(list)]. The chain class itself lives in [chain.py],
    outside the modelled files; only its constructor is used. *)
#[local] Unset Elimination Schemes.
Inductive Transform :=
| Obj (cls : string) (ident : addr)
| ChainTransform (transforms : list Transform).
#[local] Set Elimination Schemes.

Definition class_of (t : Transform) : string :=
  match t with
  | Obj c _ => c
  | ChainTransform _ => "ChainTransform"
  end.

(** What a special method hands back. *)
Inductive outcome :=
| Value (t : Transform)
| NotImplemented
| Raised (e : exn).

Definition method := Transform -> Transform -> outcome.

Definition TypeError : exn :=
  OtherError "TypeError" "unsupported operand type(s) for *".

Section Protocol.

(** The class table. [own_mul c] is the [__mul__] that attribute lookup on
    class [c] finds below [Transform] ([None] when lookup ends at
    [Transform.__mul__]); likewise [own_rmul]. [subclass_of cb ca] tells
    whether [cb] is a proper subclass of [ca] whose [__rmul__] is not the
    function that lookup on [ca] finds; a class that only inherits the
    [__rmul__] of [ca] answers [false]. *)
Variable own_mul : string -> option method.
Variable own_rmul : string -> option method.
Variable subclass_of : string -> string -> bool.

(** [Transform.__rmul__(self, tr)] *)
Definition Transform___rmul__ (self tr : Transform) : outcome :=
  Value (ChainTransform [tr; self]).

(** Attribute lookup [t.__rmul__]. *)
Definition lookup_rmul (t : Transform) : method :=
  match own_rmul (class_of t) with
  | Some m => m
  | None => Transform___rmul__
  end.

(** [Transform.__mul__(self, tr)]: [return tr.__rmul__(self)] *)
Definition Transform___mul__ (self tr : Transform) : outcome :=
  lookup_rmul tr tr self.

Definition lookup_mul (t : Transform) : method :=
  match own_mul (class_of t) with
  | Some m => m
  | None => Transform___mul__
  end.

(** Python's evaluation of [a * b] for two transform objects: the reflected
    method of the right operand goes first when its class is a proper
    subclass of the left one's and provides a different [__rmul__], which
    is what [subclass_of] answers; [NotImplemented] from one side passes
    control to the other; the reflected method is not tried for operands of
    one class; when nobody answers, [TypeError]. *)
Definition mul (a b : Transform) : outcome :=
  let same := String.eqb (class_of a) (class_of b) in
  let right_first :=
    negb same && subclass_of (class_of b) (class_of a) in
  let try_left (fallback : outcome) :=
    match lookup_mul a a b with
    | NotImplemented => fallback
    | r => r
    end in
  let try_right (fallback : outcome) :=
    match lookup_rmul b b a with
    | NotImplemented => fallback
    | r => r
    end in
  if right_first then try_right (try_left (Raised TypeError))
  else try_left (if same then Raised TypeError else try_right (Raised TypeError)).

(** A class of the generic kind: nothing below [Transform] redefines the
    protocol. *)
Definition generic (t : Transform) : Prop :=
  own_mul (class_of t) = None /\ own_rmul (class_of t) = None.

(** *** Forward mapping of a chain *)

Variable coord : Type.

(** The [map] of a concrete instance; [None] when it raises (the base class
    raises [NotImplementedError]). *)
Variable instance_map : string -> addr -> coord -> option coord.

(** Modelled from the spec: [ChainTransform.map], whose source [chain.py] is
    not among the files. The spec fixes the order: index 0 is applied last
    under forward mapping, members are applied last-to-first. *)
Fixpoint map_forward (t : Transform) (x : coord) : option coord :=
  match t with
  | Obj c i => instance_map c i x
  | ChainTransform ts =>
      fold_right (fun m acc => acc ≫= map_forward m) (Some x) ts
  end.

End Protocol.

End Transforms.

Module Plot.
Import Construction.

(** ** [Fig] *)

Section Fig.

(** The grid and its widgets belong to [vispy.scene]; indexing the grid may
    create a widget (changing the grid) or raise. *)
Variables Grid PlotWidget Idx : Type.
Variable grid___getitem__ : Grid -> Idx -> Result PlotWidget * Grid.

(** A figure holds its grid and a reference to one list object. *)
Record Fig := mkFig {
  _grid : Grid;
  _plot_widgets : addr
}.

(** The list objects of the heap. *)
Abbreviation Lists := (gmap addr (list PlotWidget)).

(** A sequence value: a tuple carries its items, a list is a reference to
    a mutable object. *)
Inductive pyseq :=
| PyTuple (items : list PlotWidget)
| PyList (ref : addr).

(** What one reads from a sequence value in a given heap. *)
Definition items_of (v : pyseq) (h : Lists) : list PlotWidget :=
  match v with
  | PyTuple l => l
  | PyList a => default [] (h !! a)
  end.

(** [Fig.plot_widgets]: [tuple(self._plot_widgets)] *)
Definition plot_widgets (fig : Fig) (h : Lists) : pyseq :=
  PyTuple (default [] (h !! _plot_widgets fig)).

(** [Fig.__getitem__]: the [+=] extends the list object in place. *)
Definition Fig___getitem__ (idxs : Idx) (s : Fig * Lists)
  : Result PlotWidget * (Fig * Lists) :=
  let '(fig, h) := s in
  match grid___getitem__ (_grid fig) idxs with
  | (Raise e, g') =>
      (Raise e, ({| _grid := g'; _plot_widgets := _plot_widgets fig |}, h))
  | (Return pw, g') =>
      (Return pw,
       ({| _grid := g'; _plot_widgets := _plot_widgets fig |},
        alter (fun l => l ++ [pw]) (_plot_widgets fig) h))
  end.

(** [k] evaluations of [fig[idxs]] in a row, with what each returned. *)
Fixpoint index_times (k : nat) (idxs : Idx) (s : Fig * Lists)
  : list (Result PlotWidget) * (Fig * Lists) :=
  match k with
  | O => ([], s)
  | S k' =>
      let '(r, s1) := Fig___getitem__ idxs s in
      let '(rs, s2) := index_times k' idxs s1 in
      (r :: rs, s2)
  end.

(** The same [k] lookups made on the grid alone. *)
Fixpoint grid_times (k : nat) (idxs : Idx) (g : Grid)
  : list (Result PlotWidget) * Grid :=
  match k with
  | O => ([], g)
  | S k' =>
      let '(r, g1) := grid___getitem__ g idxs in
      let '(rs, g2) := grid_times k' idxs g1 in
      (r :: rs, g2)
  end.

(** [Fig.__init__], as far as these attributes go: the grid it was given
    and a new empty list at a fresh address. *)
Definition Fig___init__ (g : Grid) (h : Lists) : Fig * Lists :=
  let a := fresh (dom h) in
  ({| _grid := g; _plot_widgets := a |}, <[a := []]> h).

(** The widgets among a list of results. *)
Definition returned (rs : list (Result PlotWidget)) : list PlotWidget :=
  omap (fun r => match r with Return pw => Some pw | Raise _ => None end) rs.

End Fig.

End Plot.

Module SceneOps.
Import Scene.

(** ** More of [VisualNode]: the [interactive] property, and vocabulary for
    whole subtrees *)

(** [VisualNode.interactive.setter]: [self._interactive = i] *)
Definition interactive_setter (i : bool) (st : VisualNodeState) : VisualNodeState :=
  {| self_ := self_ st;
     _id := _id st;
     _visual_superclass := _visual_superclass st;
     _picking := _picking st;
     _interactive := i;
     _picking_filter_enabled := _picking_filter_enabled st;
     gl_blend := gl_blend st;
     _clippers := _clippers st |}.

(** The records of a node and of everything below it, a node after all of
    its descendants. *)
Fixpoint postorder (n : VisualNode) : list VisualNodeState :=
  match n with
  | Node st cs => flat_map postorder cs ++ [st]
  end.

(** The same records, a node before its descendants. *)
Fixpoint preorder (n : VisualNode) : list VisualNodeState :=
  match n with
  | Node st cs => st :: flat_map preorder cs
  end.

(** The same tree with every record rewritten by [f]. *)
Fixpoint tree_map (f : VisualNodeState -> VisualNodeState) (n : VisualNode)
  : VisualNode :=
  match n with
  | Node st cs => Node (f st) (map (tree_map f) cs)
  end.

(** The record of a node after [picking = p]: untouched when it held [p]. *)
Definition assign_picking (p : bool) (st : VisualNodeState) : VisualNodeState :=
  if Bool.eqb (_picking st) p then st else set_local_picking p st.

(** The filter switch and the blend state agree with the flag. *)
Definition in_sync (st : VisualNodeState) : bool :=
  Bool.eqb (_picking_filter_enabled st) (_picking st)
  && Bool.eqb (gl_blend st) (negb (_picking st)).

(** A sequence of [_set_clipper] calls on one node, with all their events. *)
Fixpoint set_clippers (calls : list (addr * option addr)) (st : VisualNodeState)
  : VisualNodeState * list event :=
  match calls with
  | [] => (st, [])
  | (node, clipper) :: rest =>
      let '(st1, ev1) := _set_clipper node clipper st in
      let '(st2, ev2) := set_clippers rest st1 in
      (st2, ev1 ++ ev2)
  end.

(** The clipper passed by the last call for [node], if there was a call. *)
Fixpoint last_call (node : addr) (calls : list (addr * option addr))
  : option (option addr) :=
  match calls with
  | [] => None
  | (n, c) :: rest =>
      match last_call node rest with
      | Some later => Some later
      | None => if Pos.eqb n node then Some c else None
      end
  end.

(** How often a log attaches, and detaches, the clipper [c]. *)
Definition is_attach (c : addr) (e : event) : bool :=
  match e with
  | EvAttach _ (ClipperItem c') => Pos.eqb c c'
  | _ => false
  end.

Definition is_detach (c : addr) (e : event) : bool :=
  match e with
  | EvDetach _ (ClipperItem c') => Pos.eqb c c'
  | _ => false
  end.

Definition attaches (c : addr) (log : list event) : nat :=
  length (List.filter (is_attach c) log).

Definition detaches (c : addr) (log : list event) : nat :=
  length (List.filter (is_detach c) log).

(** For how many children [c] is the recorded clipper. *)
Definition recorded (c : addr) (clippers : gmap addr addr) : nat :=
  size (filter (fun kv => kv.2 = c) clippers).

End SceneOps.

Module RuntimeOps.
Import Construction Runtime.

(** The step that drops the client's reference to [a]. *)
Definition releases (a : addr) (l : label) : bool :=
  match l with
  | LRelease b => Pos.eqb a b
  | _ => false
  end.

(** [a], registered under [i], is alive and held by client code. *)
Definition held (i : Z) (a : addr) (w : World) : Prop :=
  lookup_visual i w = Some a /\ a ∈ live w /\ a ∈ referenced w
  /\ i < _next_id w.

(** Ids start at 1 and no object is registered twice. *)
Definition registry_tidy (w : World) : Prop :=
  1 <= _next_id w
  /\ (forall i a, lookup_visual i w = Some a -> 1 <= i)
  /\ (forall i j a,
        lookup_visual i w = Some a -> lookup_visual j w = Some a -> i = j).

End RuntimeOps.

Module PlotOps.
Import Construction Plot.

Section Fig.

Variables Grid PlotWidget Idx : Type.
Variable grid___getitem__ : Grid -> Idx -> Result PlotWidget * Grid.

(** [fig[i]] for each [i] of a list in turn, with what each evaluation
    returned or raised. *)
Fixpoint index_each (idxs : list Idx) (s : Fig Grid * gmap addr (list PlotWidget))
  : list (Result PlotWidget) * (Fig Grid * gmap addr (list PlotWidget)) :=
  match idxs with
  | [] => ([], s)
  | i :: rest =>
      let '(r, s1) := Fig___getitem__ Grid PlotWidget Idx grid___getitem__ i s in
      let '(rs, s2) := index_each rest s1 in
      (r :: rs, s2)
  end.

(** The same lookups made on the grid alone. *)
Fixpoint grid_each (idxs : list Idx) (g : Grid)
  : list (Result PlotWidget) * Grid :=
  match idxs with
  | [] => ([], g)
  | i :: rest =>
      let '(r, g1) := grid___getitem__ g i in
      let '(rs, g2) := grid_each rest g1 in
      (r :: rs, g2)
  end.

End Fig.

End PlotOps.

Module TransformObject.
Import Construction.

(** ** The rest of the [Transform] base class *)

(** Attribute values of a transform object and of its class. *)
Inductive tvalue :=
| TNone                                   (* None *)
| TCode (glsl : string)                   (* GLSL source text *)
| TFunction (source : tvalue)             (* shaders.Function(source) *)
| TEmitter (source : addr) (type : string). (* EventEmitter(source=, type=) *)

Definition AttributeError (name : string) : exn :=
  OtherError "AttributeError" name.

Definition NotImplementedError : exn :=
  OtherError "NotImplementedError" "".

(** [self.<name>]: the instance dictionary first, then the class (with what
    it inherits). *)
Definition getattr (cls inst : gmap string tvalue) (name : string)
  : Result tvalue :=
  match inst !! name with
  | Some v => Return v
  | None =>
      match cls !! name with
      | Some v => Return v
      | None => Raise (AttributeError name)
      end
  end.

(** The attributes defined in the body of [class Transform]. *)
Definition Transform_attributes : gmap string tvalue :=
  <["glsl_map" := TNone]>
    (<["glsl_imap" := TNone]>
       (<["Linear" := TNone]>
          (<["Orthogonal" := TNone]>
             (<["NonScaling" := TNone]>
                (<["Isometric" := TNone]> ∅))))).

(** The attributes seen through a subclass that defines [own]. *)
Definition subclass_attributes (own : gmap string tvalue) : gmap string tvalue :=
  own ∪ Transform_attributes.

(** [Transform.__init__(self)]: returns the new instance dictionary. *)
Definition Transform___init__ (self : addr) (cls inst : gmap string tvalue)
  : Result (gmap string tvalue) :=
  let inst1 := <["changed" := TEmitter self "transform_changed"]> inst in
  match getattr cls inst1 "glsl_map" with
  | Raise e => Raise e
  | Return m =>
      let inst2 :=
        match m with
        | TNone => inst1
        | _ => <["_shader_map" := TFunction m]> inst1
        end in
      match getattr cls inst2 "glsl_imap" with
      | Raise e => Raise e
      | Return im =>
          Return match im with
                 | TNone => inst2
                 | _ => <["_shader_imap" := TFunction im]> inst2
                 end
      end
  end.

(** [Transform.shader_map(self)] and [Transform.shader_imap(self)] *)
Definition shader_map (cls inst : gmap string tvalue) : Result tvalue :=
  getattr cls inst "_shader_map".

Definition shader_imap (cls inst : gmap string tvalue) : Result tvalue :=
  getattr cls inst "_shader_imap".

(** [Transform.map], [Transform.imap], [Transform.inverse] of the base
    class. *)
Definition Transform_map {A : Type} (obj : A) : Result A :=
  Raise NotImplementedError.

Definition Transform_imap {A : Type} (obj : A) : Result A :=
  Raise NotImplementedError.

End TransformObject.

Module Docstring.
Import Construction.

(** ** [generate_docstring] *)

Definition newline : ascii := ascii_of_nat 10.
Definition nl : string := String newline EmptyString.

(** [s.split("\n")] *)
Fixpoint split_lines (s : string) : list string :=
  match s with
  | EmptyString => [EmptyString]
  | String c rest =>
      if Ascii.eqb c newline then EmptyString :: split_lines rest
      else match split_lines rest with
           | first :: others => String c first :: others
           | [] => [String c EmptyString]
           end
  end.

(** ['\n'.join(lines)] *)
Fixpoint join_lines (lines : list string) : string :=
  match lines with
  | [] => EmptyString
  | l :: rest =>
      match rest with
      | [] => l
      | _ => String.append l (String.append nl (join_lines rest))
      end
  end.

(** [l[lo:hi]] for bounds that are [None] or not negative. *)
Definition py_slice {A} (lo hi : option nat) (l : list A) : list A :=
  take (default (length l) hi - default 0 lo)%nat (drop (default 0%nat lo) l).

(** [[a-zA-Z0-9_]] *)
Definition is_ident (c : ascii) : bool :=
  let n := nat_of_ascii c in
  ((48 <=? n) && (n <=? 57) || (65 <=? n) && (n <=? 90)
   || (97 <=? n) && (n <=? 122) || (n =? 95))%nat.

Definition TypeError_None : exn :=
  OtherError "TypeError" "'<' not supported between instances of 'int' and 'NoneType'".

Section Classes.

(** The two character classes of the running interpreter: [isspace] is the
    whitespace of [str.strip] and of the pattern [\s], [isword] the class of
    the pattern [\w]. The matchers below are the meaning of the patterns
    given that neither a character of [[a-zA-Z0-9_]], nor [:], nor [P] is
    whitespace, which leaves the patterns no choice. *)
Variable isspace : ascii -> bool.
Variable isword : ascii -> bool.

(** [s.lstrip()] *)
Fixpoint lstrip (s : string) : string :=
  match s with
  | EmptyString => EmptyString
  | String c rest => if isspace c then lstrip rest else s
  end.

Definition reverse (s : string) : string :=
  string_of_list_ascii (rev (list_ascii_of_string s)).

(** [s.rstrip()], [s.strip()] *)
Definition rstrip (s : string) : string := reverse (lstrip (reverse s)).
Definition strip (s : string) : string := rstrip (lstrip s).

(** [re.search(r'\w', line)] *)
Fixpoint has_word (line : string) : bool :=
  match line with
  | EmptyString => false
  | String c rest => isword c || has_word rest
  end.

(** [len(line) - len(line.lstrip())] *)
Definition indent_of (line : string) : nat :=
  (String.length line - String.length (lstrip line))%nat.

(** [re.match(r'\s*Parameters\s*', line)] *)
Definition match_heading (line : string) : bool :=
  String.prefix "Parameters" (lstrip line).

Fixpoint skip_ident (s : string) : string :=
  match s with
  | EmptyString => EmptyString
  | String c rest => if is_ident c then skip_ident rest else s
  end.

(** [re.match(r'\s*[a-zA-Z0-9_]+\s*:\s*\S+', line)] *)
Definition match_param (line : string) : bool :=
  match lstrip line with
  | EmptyString => false
  | String c rest =>
      is_ident c
      && match lstrip (skip_ident rest) with
         | EmptyString => false
         | String d after =>
             Ascii.eqb d ":"%char
             && negb (String.eqb (lstrip after) EmptyString)
         end
  end.

(** [while lines and lines[0].strip() == '': lines.pop(0)] *)
Fixpoint drop_blank (lines : list string) : list string :=
  match lines with
  | [] => []
  | l :: rest => if String.eqb (strip l) EmptyString then drop_blank rest else lines
  end.

(** The variables of the scanning loop. *)
Record scan := mkScan {
  params_started : bool;
  param_indent : option nat;
  first_blank : option nat;
  param_end : option nat
}.

Definition scan0 : scan :=
  {| params_started := false; param_indent := None;
     first_blank := None; param_end := None |}.

(** How the body of the loop ends: at the increment, or at a [break]. *)
Inductive control :=
| Next (s : scan)
| Break (s : scan).

(** The body of the [while] loop up to [i += 1], for [line = lines[i]]. *)
Definition scan_line (i : nat) (line : string) (s : scan) : Result control :=
  if has_word line then
    let indent := indent_of line in
    if params_started s then
      match param_indent s with
      | None => Raise TypeError_None
      | Some pi =>
          if (indent <? pi)%nat then Return (Break s)
          else if (indent =? pi)%nat && negb (match_param line)
          then Return (Break s)
          else Return (Next {| params_started := params_started s;
                               param_indent := param_indent s;
                               first_blank := first_blank s;
                               param_end := Some (i + 1)%nat |})
      end
    else if match_heading line then
      Return (Next {| params_started := true;
                      param_indent := Some indent;
                      first_blank := match first_blank s with
                                     | None => Some i
                                     | Some f => Some f
                                     end;
                      param_end := param_end s |})
    else Return (Next s)
  else if bool_decide (first_blank s = None) && String.eqb (strip line) EmptyString
  then Return (Next {| params_started := params_started s;
                       param_indent := param_indent s;
                       first_blank := Some i;
                       param_end := param_end s |})
  else Return (Next s).

(** The [while i < len(lines)] loop: [rest] is [lines[i:]], [n] is
    [len(lines)]. After the increment, the end of the docstring sets
    [param_end] when nothing has set it. *)
Fixpoint scan_lines (n i : nat) (rest : list string) (s : scan) : Result scan :=
  match rest with
  | [] => Return s
  | line :: rest' =>
      match scan_line i line s with
      | Raise e => Raise e
      | Return (Break s') => Return s'
      | Return (Next s') =>
          let i' := (i + 1)%nat in
          let s'' :=
            if (i' =? n)%nat && bool_decide (param_end s' = None)
            then {| params_started := params_started s';
                    param_indent := param_indent s';
                    first_blank := first_blank s';
                    param_end := Some i' |}
            else s' in
          scan_lines n i' rest' s''
      end
  end.

(** [if not params_started: ...]: the lines, [first_blank] and [param_end]
    as the assembly sees them. *)
Definition with_heading (lines : list string) (s : scan)
  : list string * option nat * option nat :=
  if negb (params_started s) then
    let lines' := lines ++ [EmptyString; "    Parameters"; "    ----------"] in
    let pe := length lines' in
    (lines',
     match first_blank s with
     | None => Some (pe - 3)%nat
     | Some f => Some f
     end,
     Some pe)
  else (lines, first_blank s, param_end s).

Definition class_desc (clsname : string) : string :=
  String.append nl
    (String.append "    This class inherits from visuals."
       (String.append clsname
          (String.append
             "Visual and scene.Node, allowing the visual to be placed inside a scenegraph."
             nl))).

Definition parm_doc : string :=
  String.append "    parent : Node"
   (String.append nl
    (String.append "        The parent node to assign to this node (optional)."
     (String.append nl
      (String.append "    name : string"
       (String.append nl
        (String.append "        A name for this node, used primarily for debugging"
         (String.append nl "        (optional)."))))))).

(** [lines[:first_blank] + [class_desc] + lines[first_blank:param_end]
     + [parm_doc] + lines[param_end:]] *)
Definition assemble (lines : list string) (fb pe : option nat)
    (desc parm : string) : list string :=
  py_slice None fb lines ++ [desc] ++ py_slice fb pe lines ++ [parm]
  ++ py_slice pe None lines.

(** The lines of the docstring before the scan. *)
Definition docstring_lines (subclass : pyclass) : list string :=
  drop_blank (split_lines (default EmptyString (__doc__ subclass))).

(** The list that the function joins at its end. *)
Definition generated_lines (subclass : pyclass) (clsname : string)
  : Result (list string) :=
  let lines := docstring_lines subclass in
  match scan_lines (length lines) 0%nat lines scan0 with
  | Raise e => Raise e
  | Return s =>
      let '(lines', fb, pe) := with_heading lines s in
      Return (assemble lines' fb pe (class_desc clsname) parm_doc)
  end.

Definition generate_docstring (subclass : pyclass) (clsname : string)
  : Result string :=
  match generated_lines subclass clsname with
  | Raise e => Raise e
  | Return lines => Return (join_lines lines)
  end.

(** The [try] / [except Exception] around the call in
    [create_visual_node]. *)
Definition try_generate_docstring (subclass : pyclass) (clsname : string)
  : option string :=
  match generate_docstring subclass clsname with
  | Return d => Some d
  | Raise _ => None
  end.

End Classes.

(** The classes restricted to ASCII, as every Python version has them there
    but for the four separators 28 to 31, which Python 3 counts as
    whitespace. *)
Definition ascii_isspace (c : ascii) : bool :=
  let n := nat_of_ascii c in
  ((9 <=? n) && (n <=? 13) || (28 <=? n) && (n <=? 32))%nat.

Definition ascii_isword (c : ascii) : bool := is_ident c.

End Docstring.

Module DocstringOps.
Import Construction Docstring.

(** ** Vocabulary for the properties of [generate_docstring] *)

(** [l] with [x] put in front of position [k]. *)
Definition insert_at {A} (k : nat) (x : A) (l : list A) : list A :=
  take k l ++ x :: drop k l.

(** The heading the function appends when the docstring has none. *)
Definition generated_heading : list string :=
  [EmptyString; "    Parameters"; "    ----------"].

(** What the loop keeps true of its variables before it looks at
    [lines[i]], [n] being [len(lines)]. *)
Definition scan_ok (n i : nat) (s : scan) : Prop :=
  (params_started s = true ->
     is_Some (param_indent s) /\ is_Some (first_blank s))
  /\ (forall f, first_blank s = Some f -> (f < i)%nat)
  /\ (forall e, param_end s = Some e ->
        (e <= i)%nat /\ (params_started s = true \/ i = n))
  /\ (forall f e, first_blank s = Some f -> param_end s = Some e -> (f < e)%nat).

Section Classes.

Variable isspace : ascii -> bool.
Variable isword : ascii -> bool.

(** A line that opens the parameter section. *)
Definition is_heading (line : string) : bool :=
  has_word isword line && match_heading isspace line.

(** A line without word character that is empty once stripped. *)
Definition is_blank (line : string) : bool :=
  negb (has_word isword line) && String.eqb (strip isspace line) EmptyString.

(** A line that closes the parameter section opened at indentation [pi]. *)
Definition ends_params (pi : nat) (line : string) : bool :=
  has_word isword line
  && ((indent_of isspace line <? pi)%nat
      || (indent_of isspace line =? pi)%nat && negb (match_param isspace line)).

(** A line of whitespace. *)
Fixpoint all_space (l : string) : bool :=
  match l with
  | EmptyString => true
  | String c rest => isspace c && all_space rest
  end.

(** Only whitespace and line breaks. *)
Fixpoint whitespace_only (s : string) : bool :=
  match s with
  | EmptyString => true
  | String c rest =>
      (Ascii.eqb c newline || isspace c) && whitespace_only rest
  end.

(** The position of the first blank line, or the number of lines when
    there is none. *)
Fixpoint first_blank_index (lines : list string) : nat :=
  match lines with
  | [] => 0%nat
  | l :: rest => if is_blank l then 0%nat else S (first_blank_index rest)
  end.

(** The position of the first line that is blank or opens the parameter
    section, or the number of lines when there is none: where the class
    description goes. *)
Fixpoint description_index (lines : list string) : nat :=
  match lines with
  | [] => 0%nat
  | l :: rest =>
      if is_blank l || is_heading l then 0%nat
      else S (description_index rest)
  end.

(** [first_blank] after the loop went over the lines [pre], from
    position [i] on, without meeting a heading. *)
Definition first_blank_after (i : nat) (pre : list string) (fb : option nat)
  : option nat :=
  match fb with
  | Some f => Some f
  | None =>
      if (first_blank_index pre <? length pre)%nat
      then Some (i + first_blank_index pre)%nat
      else None
  end.

End Classes.

End DocstringOps.

Module ProtocolRules.
Import Transforms.

(** ** What the protocol asks of subclasses *)

(** The docstring of [Transform.__mul__]: an own [__mul__] answers a product
    or, when it cannot do better, [NotImplemented]; an own [__rmul__] always
    answers a product, at worst a chain. Neither raises. *)
Definition follows_protocol (own_mul own_rmul : string -> option method) : Prop :=
  (forall c m a b e, own_mul c = Some m -> m a b <> Raised e)
  /\ (forall c m a b, own_rmul c = Some m -> exists t, m a b = Value t).

(** The product of two transforms whose classes follow the protocol never
    raises. *)
Definition mul_never_raises : Prop :=
  forall own_mul own_rmul subclass_of,
    follows_protocol own_mul own_rmul ->
    forall a b e, mul own_mul own_rmul subclass_of a b <> Raised e.

End ProtocolRules.

Module Samples.
Import Scene.

(** ** Concrete inputs used by the examples *)

(** A leaf with the given identity and flags. *)
Definition sample_state (a : addr) (picking interactive : bool) : VisualNodeState :=
  {| self_ := a; _id := Zpos a; _visual_superclass := "LineVisual";
     _picking := picking; _interactive := interactive;
     _picking_filter_enabled := picking; gl_blend := negb picking;
     _clippers := ∅ |}.

(** A root over two levels whose flags disagree. *)
Definition sample_tree : VisualNode :=
  Node (sample_state 1%positive true false)
       [Node (sample_state 2%positive false false) [Node (sample_state 3%positive true true) []];
        Node (sample_state 4%positive true false) []].

(** Drawable classes: one that satisfies the factory, one with a wrong name,
    one outside the drawable hierarchy, one whose constructor raises. *)
Definition no_docs : Construction.pyclass -> string -> option string :=
  fun _ _ => None.

Definition LineVisual : Construction.pyclass :=
  {| Construction.__name__ := "LineVisual";
     Construction.__mro__ := ["LineVisual"; "Visual"; "BaseVisual"; "object"];
     Construction.__doc__ := Some "Line visual";
     Construction.__init__ := fun _ _ _ => ([1%nat; 2%nat], None) |}.

Definition LineHelper : Construction.pyclass :=
  {| Construction.__name__ := "LineHelper";
     Construction.__mro__ := ["LineHelper"; "Visual"; "BaseVisual"; "object"];
     Construction.__doc__ := None;
     Construction.__init__ := fun _ _ _ => ([], None) |}.

Definition BrokenVisual : Construction.pyclass :=
  {| Construction.__name__ := "BrokenVisual";
     Construction.__mro__ := ["BrokenVisual"; "Visual"; "BaseVisual"; "object"];
     Construction.__doc__ := None;
     Construction.__init__ :=
       fun _ _ _ => ([7%nat], Some (OtherError "ValueError" "bad data")) |}.

(** A drawable that already derives from a produced class, as
    [class FancyLineVisual(Line)] would. *)
Definition FancyLineVisual : Construction.pyclass :=
  {| Construction.__name__ := "FancyLineVisual";
     Construction.__mro__ :=
       ["FancyLineVisual"; "Line"; "VisualNode"; "Node"; "LineVisual";
        "Visual"; "BaseVisual"; "object"];
     Construction.__doc__ := None;
     Construction.__init__ := fun _ _ _ => ([], None) |}.

Definition mro_conflict : exn :=
  OtherError "TypeError"
    "Cannot create a consistent method resolution order (MRO) for bases".

(** One way for [type] to fail: with [VisualNode] first among the bases, a
    second base that has [VisualNode] among its ancestors leaves no
    linearisation. Other classes are built. *)
Definition sample_type_new (clsname : string) (subclass : Construction.pyclass)
  : option exn :=
  if existsb (String.eqb "VisualNode") (Construction.__mro__ subclass)
  then Some mro_conflict
  else None.

(** [scene.Line], as the factory builds it from [LineVisual]. *)
Definition Line : Construction.NodeClass :=
  {| Construction.node_name := "Line";
     Construction.node_bases := ["VisualNode"; "LineVisual"];
     Construction.node_doc := Some "Line visual";
     Construction.wrapped := LineVisual |}.

(** The world after [Line()] on object 1, and after dropping that object. *)
Definition world1 : Construction.World :=
  (Construction.instantiate Line 1%positive [] ∅
     (Runtime.allocate 1%positive Construction.initial_world)).2.

Definition world1_released : Construction.World :=
  Runtime.release 1%positive world1.

(** ... and after a second [Line()] on object 2 while 1 is still held. *)
Definition world2 : Construction.World :=
  (Construction.instantiate Line 2%positive [] ∅
     (Runtime.allocate 2%positive world1)).2.

(** A class table with one optimising kind, [NullTransform], which absorbs
    itself in a product; every other class is generic. *)
Definition sample_own_mul (c : string) : option Transforms.method :=
  if String.eqb c "NullTransform"
  then Some (fun self tr => Transforms.Value tr)
  else None.

Definition sample_own_rmul (c : string) : option Transforms.method :=
  if String.eqb c "NullTransform"
  then Some (fun self tr => Transforms.Value tr)
  else None.

(** Every sample class derives directly from [Transform]; only
    [NullTransform] brings a [__rmul__] of its own. *)
Definition sample_subclass_of (c d : string) : bool :=
  String.eqb d "Transform" && String.eqb c "NullTransform".

Definition translateA : Transforms.Transform :=
  Transforms.Obj "STTransform" 1%positive.
Definition translateB : Transforms.Transform :=
  Transforms.Obj "MatrixTransform" 2%positive.
Definition null : Transforms.Transform :=
  Transforms.Obj "NullTransform" 3%positive.

(** Coordinates on the integer plane: [translateA] shifts by (1, 0),
    [translateB] doubles, everything else has no [map]. *)
Definition sample_map (c : string) (i : addr) (x : Z * Z) : option (Z * Z) :=
  if String.eqb c "STTransform" then Some (x.1 + 1, x.2)
  else if String.eqb c "MatrixTransform" then Some (2 * x.1, 2 * x.2)
  else None.

(** A grid as an association list from cell to widget number; indexing an
    empty cell creates the next widget there. *)
Definition sample_grid___getitem__ (g : list (nat * nat)) (idxs : nat)
  : Construction.Result nat * list (nat * nat) :=
  match List.find (fun cell => Nat.eqb cell.1 idxs) g with
  | Some cell => (Construction.Return cell.2, g)
  | None => (Construction.Return (length g), (idxs, length g) :: g)
  end.

(** A fresh figure over an empty grid. *)
Definition sample_fig : Plot.Fig (list (nat * nat)) * gmap addr (list nat) :=
  Plot.Fig___init__ (list (nat * nat)) nat [] ∅.

(** The figure after its first indexing, where cell 0 is occupied. *)
Definition sample_fig1 : Plot.Fig (list (nat * nat)) * gmap addr (list nat) :=
  (Plot.Fig___getitem__ _ _ _ sample_grid___getitem__ 0%nat sample_fig).2.

(** A drawable documented the numpy way. *)
Definition documented_doc : string :=
  String.append "Line visual"
   (String.append Docstring.nl
    (String.append Docstring.nl
     (String.append "    Parameters"
      (String.append Docstring.nl
       (String.append "    ----------"
        (String.append Docstring.nl
         (String.append "    pos : array"
          (String.append Docstring.nl
           (String.append "        Points of the line."
            (String.append Docstring.nl
             (String.append Docstring.nl
              (String.append "    Notes"
               (String.append Docstring.nl "    Some notes."))))))))))))).

Definition DocumentedVisual : Construction.pyclass :=
  {| Construction.__name__ := "DocumentedVisual";
     Construction.__mro__ := ["DocumentedVisual"; "Visual"; "BaseVisual"; "object"];
     Construction.__doc__ := Some documented_doc;
     Construction.__init__ := fun _ _ _ => ([], None) |}.

(** A drawable whose docstring opens with the word Parameters in a
    sentence. *)
Definition ProseVisual : Construction.pyclass :=
  {| Construction.__name__ := "ProseVisual";
     Construction.__mro__ := ["ProseVisual"; "Visual"; "BaseVisual"; "object"];
     Construction.__doc__ :=
       Some (String.append "Parameters of a curve."
              (String.append Docstring.nl "More text."));
     Construction.__init__ := fun _ _ _ => ([], None) |}.

(** A transform class with GLSL code for the forward mapping only. *)
Definition forward_only : gmap string TransformObject.tvalue :=
  <["glsl_map" := TransformObject.TCode "vec4 forward(vec4 pos) { return pos; }"]> ∅.

(** A class whose [__mul__] always declines. *)
Definition sample_declining_mul (c : string) : option Transforms.method :=
  if String.eqb c "ShyTransform"
  then Some (fun _ _ => Transforms.NotImplemented)
  else None.

Definition declining : Transforms.Transform :=
  Transforms.Obj "ShyTransform" 4%positive.

End Samples.

(** * Properties *)

Section SceneFacts.
Import Scene Samples.

(** Induction on the scenegraph, with the hypothesis available for every
    child. *)
Lemma VisualNode_tree_ind (P : VisualNode -> Prop) :
  (forall st cs, Forall P cs -> P (Node st cs)) ->
  forall n, P n.
Proof.
  intros Hnode.
  fix self 1.
  intros [st cs]. apply Hnode.
  induction cs as [|c cs IHcs]; constructor; [apply self | exact IHcs].
Qed.

(** The setter written with its loop named. *)
Lemma picking_setter_unfold p st cs :
  picking_setter p (Node st cs) =
  let '(cs', evs) := picking_children p cs in
  if Bool.eqb (_picking st) p
  then (Node st cs', evs)
  else (Node (set_local_picking p st) cs', evs ++ local_picking_events p st).
Proof.
  assert (Hloop :
    (fix for_children (l : list VisualNode) : list VisualNode * list event :=
       match l with
       | [] => ([], [])
       | c :: rest =>
           let '(c', ev1) := picking_setter p c in
           let '(rest', ev2) := for_children rest in
           (c' :: rest', ev1 ++ ev2)
       end) cs = picking_children p cs).
  { induction cs as [|c cs IH]; [reflexivity|].
    cbn [picking_children]. rewrite <- IH. reflexivity. }
  cbn [picking_setter]. rewrite Hloop. reflexivity.
Qed.

(** The loop visits every child, in order, with the same value. *)
Lemma picking_children_nodes p cs :
  (picking_children p cs).1 = map (fun c => (picking_setter p c).1) cs.
Proof.
  induction cs as [|c cs IH]; [reflexivity|].
  cbn [picking_children map].
  destruct (picking_setter p c) as [c' e1].
  destruct (picking_children p cs) as [cs' e2].
  cbn in *. by rewrite IH.
Qed.

Lemma picking_children_events p cs :
  (picking_children p cs).2 = flat_map (fun c => (picking_setter p c).2) cs.
Proof.
  induction cs as [|c cs IH]; [reflexivity|].
  cbn [picking_children flat_map].
  destruct (picking_setter p c) as [c' e1].
  destruct (picking_children p cs) as [cs' e2].
  cbn in *. by rewrite IH.
Qed.

Lemma picking_setter_children p st cs :
  children (picking_setter p (Node st cs)).1
  = map (fun c => (picking_setter p c).1) cs.
Proof.
  rewrite picking_setter_unfold, <- picking_children_nodes.
  destruct (picking_children p cs) as [cs' evs].
  by destruct (Bool.eqb (_picking st) p).
Qed.

Lemma picking_setter_state p st cs :
  state (picking_setter p (Node st cs)).1
  = if Bool.eqb (_picking st) p then st else set_local_picking p st.
Proof.
  rewrite picking_setter_unfold.
  destruct (picking_children p cs) as [cs' evs].
  by destruct (Bool.eqb (_picking st) p).
Qed.

Lemma picking_setter_events p st cs :
  (picking_setter p (Node st cs)).2
  = flat_map (fun c => (picking_setter p c).2) cs
    ++ (if Bool.eqb (_picking st) p then [] else local_picking_events p st).
Proof.
  rewrite picking_setter_unfold, <- picking_children_events.
  destruct (picking_children p cs) as [cs' evs].
  destruct (Bool.eqb (_picking st) p); cbn; [by rewrite app_nil_r | done].
Qed.

(** After the assignment the node itself holds [p]. *)
Lemma picking_setter_flag p n :
  _picking (state (picking_setter p n).1) = p.
Proof.
  destruct n as [st cs]. rewrite picking_setter_state.
  destruct (Bool.eqb (_picking st) p) eqn:E; [|reflexivity].
  by apply Bool.eqb_prop in E.
Qed.

(** ... and so does everything below it. *)
Lemma picking_setter_descendants p n :
  Forall (fun d => _picking (state d) = p) (descendants (picking_setter p n).1).
Proof.
  induction n as [st cs IH] using VisualNode_tree_ind.
  pose proof (picking_setter_children p st cs) as Hc.
  destruct (picking_setter p (Node st cs)).1 as [st' cs'] eqn:En.
  cbn in Hc. subst cs'. cbn [descendants].
  clear En. induction IH as [|c cs Hc IH IHcs]; [constructor|].
  cbn [map flat_map]. constructor.
  - apply picking_setter_flag.
  - apply Forall_app. split; [exact Hc | exact IHcs].
Qed.

(** C1: for every node and every boolean [p], [picking = p] runs the same
    assignment on every child first, whatever the node's own flag, so that
    afterwards every descendant holds [p]; the node's own flag, its
    picking-filter switch and its blend state ([not p]) change exactly when
    [p] differs from the previous flag, and those two local calls come after
    all the calls made for the children. *)
Theorem picking_setter_propagates (p : bool) (st : VisualNodeState)
    (cs : list VisualNode) :
  children (picking_setter p (Node st cs)).1
    = map (fun c => (picking_setter p c).1) cs
  /\ Forall (fun d => _picking (state d) = p)
            (descendants (picking_setter p (Node st cs)).1)
  /\ state (picking_setter p (Node st cs)).1
     = (if Bool.eqb (_picking st) p then st
        else {| self_ := self_ st; _id := _id st;
                _visual_superclass := _visual_superclass st;
                _picking := p; _interactive := _interactive st;
                _picking_filter_enabled := p; gl_blend := negb p;
                _clippers := _clippers st |})
  /\ (picking_setter p (Node st cs)).2
     = flat_map (fun c => (picking_setter p c).2) cs
       ++ (if Bool.eqb (_picking st) p then []
           else [EvPickingFilterEnabled (self_ st) p;
                 EvUpdateGlState (self_ st) (negb p)]).
Proof.
  split; [apply picking_setter_children|].
  split; [apply picking_setter_descendants|].
  split; [apply picking_setter_state | apply picking_setter_events].
Qed.

(** The redundant assignment on the sample: only the child that held
    [false] reports local calls. *)
Example picking_setter_sample_events :
  (picking_setter true sample_tree).2
  = [EvPickingFilterEnabled 2%positive true; EvUpdateGlState 2%positive false].
Proof. reflexivity. Qed.

(** C3: [draw] makes no drawable-level call when [picking] is true and
    [interactive] is false; in the three other combinations it makes
    exactly one call, the wrapped drawable's own draw. *)
Theorem draw_gate (st : VisualNodeState) :
  match _picking st, _interactive st with
  | true, false => draw st = []
  | _, _ => draw st = [EvSuperclassDraw (_visual_superclass st) (self_ st)]
  end.
Proof.
  unfold draw. by destruct (_picking st), (_interactive st).
Qed.

(** C9: [_set_clipper] first detaches the clipper recorded for the child,
    if there is one, and forgets it; then, only for a clipper that is not
    [None], attaches it and records it. The child ends up with exactly the
    clipper passed (none for [None]); other children's entries and the rest
    of the node are untouched. *)
Theorem set_clipper_spec (node : addr) (clipper : option addr)
    (st : VisualNodeState) :
  (_set_clipper node clipper st).2
    = match _clippers st !! node with
      | Some old => [EvDetach (self_ st) (ClipperItem old)]
      | None => []
      end
      ++ match clipper with
         | Some c => [EvAttach (self_ st) (ClipperItem c)]
         | None => []
         end
  /\ _clippers (_set_clipper node clipper st).1 !! node = clipper
  /\ delete node (_clippers (_set_clipper node clipper st).1)
     = delete node (_clippers st)
  /\ (self_ (_set_clipper node clipper st).1,
      _id (_set_clipper node clipper st).1,
      _picking (_set_clipper node clipper st).1,
      _interactive (_set_clipper node clipper st).1,
      _picking_filter_enabled (_set_clipper node clipper st).1,
      gl_blend (_set_clipper node clipper st).1)
     = (self_ st, _id st, _picking st, _interactive st,
        _picking_filter_enabled st, gl_blend st).
Proof.
  unfold _set_clipper.
  destruct (_clippers st !! node) as [old|] eqn:Hold; destruct clipper as [c|];
    cbn; repeat split.
  - apply lookup_insert_eq.
  - by rewrite delete_insert_eq, delete_delete_eq.
  - apply lookup_delete_eq.
  - by rewrite delete_delete_eq.
  - apply lookup_insert_eq.
  - by rewrite delete_insert_eq.
  - exact Hold.
Qed.

End SceneFacts.

Section FactoryFacts.
Import Construction.

(** ** Strings *)

Lemma append_nil_l (s : string) : String.append EmptyString s = s.
Proof. reflexivity. Qed.

Lemma append_cons (c : ascii) (s t : string) :
  String.append (String c s) t = String c (String.append s t).
Proof. reflexivity. Qed.

Lemma substring_all (s : string) : substring 0 (String.length s) s = s.
Proof. induction s as [|c s IH]; cbn; [done | by rewrite IH]. Qed.

Lemma substring_skip (pre s : string) (m : nat) :
  substring (String.length pre) m (String.append pre s) = substring 0 m s.
Proof.
  induction pre as [|c pre IH]; [done|].
  rewrite append_cons. simpl. exact IH.
Qed.

Lemma length_append (s t : string) :
  String.length (String.append s t) = (String.length s + String.length t)%nat.
Proof.
  induction s as [|c s IH]; [done|].
  rewrite append_cons. simpl. by f_equal.
Qed.

Lemma substring_split (s : string) (n m : nat) :
  (n + m)%nat = String.length s ->
  s = String.append (substring 0 n s) (substring n m s).
Proof.
  revert n. induction s as [|c s IH]; intros n Hlen.
  - destruct n; simpl in *; [by destruct m | lia].
  - destruct n as [|n]; simpl in *.
    + destruct m as [|m]; [lia|]. simpl.
      rewrite append_nil_l.
      f_equal. injection Hlen as ->. by rewrite substring_all.
    + rewrite append_cons. f_equal. apply IH. lia.
Qed.

(** [endswith] holds exactly of the strings that are something followed by
    the suffix. *)
Lemma endswith_iff (s suffix : string) :
  endswith s suffix = true <-> exists pre, s = String.append pre suffix.
Proof.
  unfold endswith. rewrite andb_true_iff, Nat.leb_le, String.eqb_eq. split.
  - intros [Hle Hsub].
    exists (substring 0 (String.length s - String.length suffix) s).
    pose proof (substring_split s (String.length s - String.length suffix)
                  (String.length suffix)) as Hs.
    rewrite Hsub in Hs. apply Hs. lia.
  - intros [pre ->]. rewrite length_append. split; [lia|].
    replace (String.length pre + String.length suffix - String.length suffix)%nat
      with (String.length pre) by lia.
    rewrite substring_skip. apply substring_all.
Qed.

(** On an accepted name, [[:-6]] removes exactly the suffix. *)
Lemma drop_last6_Visual (s : string) :
  endswith s "Visual" = true -> s = String.append (drop_last6 s) "Visual".
Proof.
  intros H. unfold endswith in H.
  apply andb_true_iff in H as [Hle Hsub].
  apply Nat.leb_le in Hle. apply String.eqb_eq in Hsub.
  pose proof (substring_split s (String.length s - 6) 6) as Hs.
  change (String.length "Visual") with 6%nat in *.
  rewrite Hsub in Hs. apply Hs. lia.
Qed.

(** ** The factory *)

Variable generate_docstring : pyclass -> string -> option string.
Variable type_new : string -> pyclass -> option exn.

(** C5: a class whose name does not end in [Visual], or that is not a
    subclass of [BaseVisual], makes the factory raise [RuntimeError] with a
    message that quotes the class name; the factory returns no class, so
    there is nothing to instantiate. *)
Theorem create_visual_node_contract (subclass : pyclass) :
  endswith (__name__ subclass) "Visual" = false
  \/ issubclass subclass "BaseVisual" = false ->
  create_visual_node generate_docstring type_new subclass
    = Raise (RuntimeError
        (String.append (String.append "Class " dquote)
           (String.append (__name__ subclass)
              (String.append dquote
                 " must end with Visual, and must subclass BaseVisual"))))
  /\ forall cls : NodeClass,
       create_visual_node generate_docstring type_new subclass <> Return cls.
Proof.
  intros Hbad.
  assert (Hcond : negb (endswith (__name__ subclass) "Visual"
                        && issubclass subclass "BaseVisual") = true).
  { destruct Hbad as [-> | ->]; [done | by rewrite andb_false_r]. }
  unfold create_visual_node. rewrite Hcond. split; [reflexivity | discriminate].
Qed.

(** A class that passes both checks and that [type] accepts is wrapped: the
    produced class is named after the drawable without its suffix and
    closes over the drawable. *)
Lemma create_visual_node_accepts (subclass : pyclass) :
  endswith (__name__ subclass) "Visual" = true ->
  issubclass subclass "BaseVisual" = true ->
  type_new (drop_last6 (__name__ subclass)) subclass = None ->
  exists cls,
    create_visual_node generate_docstring type_new subclass = Return cls
    /\ wrapped cls = subclass
    /\ __name__ subclass = String.append (node_name cls) "Visual".
Proof.
  intros Hname Hsub Htype. unfold create_visual_node.
  rewrite Hname, Hsub, Htype. cbn [andb negb].
  eexists. split; [reflexivity|]. split; [reflexivity|].
  cbn [node_name]. by apply drop_last6_Visual.
Qed.

End FactoryFacts.

Section ConstructionFacts.
Import Construction Runtime Samples.

(** What [instantiate] does to the world, in full. *)
Lemma instantiate_outcome cls self args kwargs w :
  let parent := default PyNone (kwargs !! "parent") in
  let name := default PyNone (kwargs !! "name") in
  let before :=
    log w ++ EvSetName self name
          :: map (EvDrawable self)
                 (__init__ (wrapped cls) self args
                    (delete "name" (delete "parent" kwargs))).1 in
  let attrs1 :=
    <[(self, "_visual_superclass") := PyStr (__name__ (wrapped cls))]> (attrs w) in
  instantiate cls self args kwargs w =
  match (__init__ (wrapped cls) self args
           (delete "name" (delete "parent" kwargs))).2 with
  | Some e =>
      (Raise e,
       {| _next_id := _next_id w; _visual_ids := _visual_ids w;
          attrs := attrs1; live := live w; referenced := referenced w;
          log := before |})
  | None =>
      (Return tt,
       {| _next_id := _next_id w + 1;
          _visual_ids := <[_next_id w := self]> (_visual_ids w);
          attrs := <[(self, "_id") := PyInt (_next_id w)]>
                     (<[(self, "_interactive") := PyBool false]> attrs1);
          live := live w; referenced := referenced w;
          log := before ++ [EvUnfreeze self; EvNodeInit self parent name;
                            EvAttach self AlphaFilter;
                            EvAttach self (PickingFilterItem (_next_id w));
                            EvFreeze self] |})
  end.
Proof.
  cbv zeta. destruct w as [n reg at_ lv rf lg].
  cbv [instantiate composite___init__ kwargs_pop call_subclass_init].
  destruct (__init__ (wrapped cls) self args
              (delete "name" (delete "parent" kwargs))) as [work [e|]];
    cbv [VisualNode___init__ mbind M_bind bind emit setattr emit_all mthrow
         M_throw raise mret M_ret ret read_next_id register increment_next_id
         fst snd _next_id _visual_ids attrs live referenced log];
    rewrite (lookup_delete_ne kwargs "parent" "name") by done;
    repeat rewrite <- app_assoc; reflexivity.
Qed.

(** C6: in every construction of a produced class the drawable's own
    [__init__] runs to its end before anything of [VisualNode.__init__]
    happens: when the drawable's constructor raises, the construction stops
    there, no node, filter or id work is done; when it returns, all of its
    work lies in the log before the node initialisation, whose calls follow
    in program order between [unfreeze] and [freeze]. *)
Theorem drawable_init_before_node_init (cls : NodeClass) (self : addr)
    (args : list pyval) (kwargs : gmap string pyval) (w : World) :
  let parent := default PyNone (kwargs !! "parent") in
  let name := default PyNone (kwargs !! "name") in
  let drawable :=
    __init__ (wrapped cls) self args (delete "name" (delete "parent" kwargs)) in
  let r := instantiate cls self args kwargs w in
  match drawable.2 with
  | Some e =>
      r.1 = Raise e
      /\ log r.2 = log w ++ EvSetName self name :: map (EvDrawable self) drawable.1
      /\ _next_id r.2 = _next_id w
      /\ _visual_ids r.2 = _visual_ids w
  | None =>
      r.1 = Return tt
      /\ log r.2 = (log w ++ EvSetName self name :: map (EvDrawable self) drawable.1)
                   ++ [EvUnfreeze self;
                       EvNodeInit self parent name;
                       EvAttach self AlphaFilter;
                       EvAttach self (PickingFilterItem (_next_id w));
                       EvFreeze self]
  end.
Proof.
  cbv zeta. rewrite instantiate_outcome.
  destruct (__init__ (wrapped cls) self args
              (delete "name" (delete "parent" kwargs))).2 as [e|]; cbn [fst snd log _next_id _visual_ids];
    repeat split.
Qed.

End ConstructionFacts.

Section RuntimeFacts.
Import Construction Runtime Samples.

(** What each kind of step does to the counter, the registry and the
    object sets. *)
Lemma step_effect w l w' :
  step w l w' ->
  match l with
  | LConstruct _ self _ _ i =>
      i = _next_id w
      /\ _next_id w' = _next_id w + 1
      /\ _visual_ids w' = <[i := self]> (_visual_ids w)
      /\ live w' = {[self]} ∪ live w
      /\ referenced w' = {[self]} ∪ referenced w
  | LConstructFailed _ self _ _ _ =>
      _next_id w' = _next_id w
      /\ _visual_ids w' = _visual_ids w
      /\ live w' = {[self]} ∪ live w
      /\ referenced w' = {[self]} ∪ referenced w
  | LRelease a => w' = release a w
  | LCollect a => w' = collect a w /\ a ∈ live w /\ a ∉ referenced w
  end.
Proof.
  intros Hstep. destruct Hstep as [cls self args kwargs i w w' Hfresh Hrun Hid
                                  |cls self args kwargs e w w' Hfresh Hrun
                                  |a w|a w Hlive Hunref].
  - rewrite instantiate_outcome in Hrun.
    destruct (__init__ (wrapped cls) self args
                (delete "name" (delete "parent" kwargs))).2; [discriminate|].
    injection Hrun as <-. cbn in Hid |- *.
    rewrite lookup_insert_eq in Hid. injection Hid as <-. done.
  - rewrite instantiate_outcome in Hrun.
    destruct (__init__ (wrapped cls) self args
                (delete "name" (delete "parent" kwargs))).2; [|discriminate].
    injection Hrun as _ <-. done.
  - reflexivity.
  - done.
Qed.

(** The counter never goes down. *)
Lemma step_next_id_mono w l w' : step w l w' -> _next_id w <= _next_id w'.
Proof.
  intros Hstep. apply step_effect in Hstep.
  destruct l; cbn in Hstep; destruct_and?; subst; cbn; lia.
Qed.

Lemma steps_next_id_mono w ls w' : steps w ls w' -> _next_id w <= _next_id w'.
Proof.
  induction 1 as [|w l w1 ls w2 Hstep _ IH]; [lia|].
  apply step_next_id_mono in Hstep. lia.
Qed.

(** The ids handed out along a run are the consecutive values of the
    counter. *)
Lemma steps_assigned_ids w ls w' :
  steps w ls w' ->
  assigned_ids ls = seqZ (_next_id w) (_next_id w' - _next_id w).
Proof.
  induction 1 as [w|w l w1 ls w2 Hstep Hsteps IH].
  - by rewrite Z.sub_diag.
  - pose proof (steps_next_id_mono _ _ _ Hsteps) as Hmono.
    apply step_effect in Hstep. unfold assigned_ids in *.
    destruct l as [cls self args kwargs i|cls self args kwargs e|a|a];
      cbn [omap list_omap assigned]; cbn in Hstep.
    + destruct Hstep as (-> & Hnext & _).
      rewrite IH, Hnext.
      rewrite (seqZ_cons (_next_id w)) by lia.
      f_equal. f_equal; lia.
    + destruct Hstep as (Hnext & _). by rewrite IH, Hnext.
    + subst w1. exact IH.
    + destruct Hstep as (-> & _). exact IH.
Qed.

Lemma seqZ_strongly_sorted (n : nat) (m : Z) :
  StronglySorted Z.lt (seqZ m (Z.of_nat n)).
Proof.
  revert m. induction n as [|n IH]; intros m.
  - constructor.
  - rewrite seqZ_cons by lia. constructor.
    + replace (Z.pred (Z.of_nat (S n))) with (Z.of_nat n) by lia. apply IH.
    + apply Forall_forall. intros x Hx.
      apply elem_of_seqZ in Hx. lia.
Qed.

(** C7: along any run of the system (constructions, failed constructions,
    releases and collections interleaved), the ids handed out to the
    successfully constructed nodes are the consecutive values of the one
    counter [_next_id], starting at its value at the beginning of the run:
    they are strictly increasing in construction order, hence pairwise
    distinct and never handed out twice, and the counter, which no step
    lowers, ends that many above its start. *)
Theorem visual_ids_strictly_increasing (w : World) (ls : list label) (w' : World) :
  steps w ls w' ->
  assigned_ids ls = seqZ (_next_id w) (Z.of_nat (length (assigned_ids ls)))
  /\ StronglySorted Z.lt (assigned_ids ls)
  /\ NoDup (assigned_ids ls)
  /\ _next_id w' = _next_id w + Z.of_nat (length (assigned_ids ls)).
Proof.
  intros Hsteps.
  pose proof (steps_next_id_mono _ _ _ Hsteps) as Hmono.
  pose proof (steps_assigned_ids _ _ _ Hsteps) as Hids.
  assert (Hlen : Z.of_nat (length (assigned_ids ls)) = _next_id w' - _next_id w).
  { rewrite Hids, length_seqZ. lia. }
  rewrite Hlen. split; [exact Hids|]. rewrite Hids.
  split; [|split; [apply NoDup_seqZ | lia]].
  rewrite <- (Z2Nat.id (_next_id w' - _next_id w)) by lia.
  apply seqZ_strongly_sorted.
Qed.


(** ** The registry *)

Lemma initial_world_sound : registry_sound initial_world.
Proof. intros i a H. unfold lookup_visual in H. cbn in H. by rewrite lookup_empty in H. Qed.

Lemma collect_lookup a w i :
  lookup_visual i (collect a w)
  = match lookup_visual i w with
    | Some b => if decide (b = a) then None else Some b
    | None => None
    end.
Proof.
  unfold lookup_visual. cbn [collect _visual_ids].
  rewrite map_lookup_filter.
  destruct (_visual_ids w !! i) as [b|]; cbn; [|done].
  destruct (decide (b = a)) as [->|Hne].
  - by rewrite option_guard_False by (cbn; tauto).
  - by rewrite option_guard_True.
Qed.

Lemma step_sound w l w' : registry_sound w -> step w l w' -> registry_sound w'.
Proof.
  intros Hsound Hstep. apply step_effect in Hstep.
  destruct l as [cls self args kwargs j|cls self args kwargs e|b|b];
    cbn in Hstep; intros i a Hi.
  - destruct Hstep as (-> & Hnext & Hreg & Hlive & _).
    unfold lookup_visual in Hi. rewrite Hreg in Hi. rewrite Hnext, Hlive.
    destruct (decide (_next_id w = i)) as [<-|Hne].
    + rewrite lookup_insert_eq in Hi. injection Hi as <-.
      split; [by apply elem_of_union_l, elem_of_singleton | lia].
    + rewrite lookup_insert_ne in Hi by done.
      destruct (Hsound i a Hi). split; [by apply elem_of_union_r | lia].
  - destruct Hstep as (Hnext & Hreg & Hlive & _).
    unfold lookup_visual in Hi. rewrite Hreg in Hi. rewrite Hnext, Hlive.
    destruct (Hsound i a Hi). split; [by apply elem_of_union_r | lia].
  - subst w'. exact (Hsound i a Hi).
  - destruct Hstep as (-> & _).
    rewrite collect_lookup in Hi.
    destruct (lookup_visual i w) as [c|] eqn:Hc; [|done].
    destruct (decide (c = b)) as [->|Hne]; [done|].
    injection Hi as <-. destruct (Hsound i c Hc).
    cbn [collect live _next_id]. split; [set_solver | done].
Qed.

Lemma steps_sound w ls w' : registry_sound w -> steps w ls w' -> registry_sound w'.
Proof.
  intros Hsound Hsteps. induction Hsteps as [|w l w1 ls w2 Hstep _ IH]; [done|].
  apply IH. by eapply step_sound.
Qed.

(** The sample run: [Line()] on object 1, then the caller drops it. *)
Lemma sample_construction :
  step initial_world (LConstruct Line 1%positive [] ∅ 1) world1.
Proof.
  apply step_construct.
  - cbn. set_solver.
  - by vm_compute.
  - by vm_compute.
Qed.

Lemma sample_run : steps initial_world
  [LConstruct Line 1%positive [] ∅ 1; LRelease 1%positive] world1_released.
Proof.
  eapply steps_cons; [apply sample_construction|].
  eapply steps_cons; [apply step_release|]. apply steps_nil.
Qed.

Lemma sample_collectable :
  1%positive ∈ live world1_released /\ 1%positive ∉ referenced world1_released.
Proof. split; vm_compute; [done | discriminate]. Qed.

(** C8, as stated, fails: after [Line()] and the loss of the last reference,
    entry 1 leaves the registry in a step of the collector, not of the
    program. *)
Lemma deregistration_is_not_explicit : ~ deregistration_is_explicit.
Proof.
  intros Hclaim.
  specialize (Hclaim _ world1_released (LCollect 1%positive)
                (collect 1%positive world1_released) 1 sample_run).
  assert (Hin : lookup_visual 1 world1_released = Some 1%positive) by by vm_compute.
  cut (false = true); [discriminate|]. apply Hclaim.
  - apply step_collect; apply sample_collectable.
  - by rewrite Hin.
  - by rewrite collect_lookup, Hin.
Qed.

(** C8, amended: the registry is a weak-value dictionary. In every
    reachable world its entries point to live objects; no step of the
    program takes an entry out; an entry leaves exactly when the collector
    reclaims the object it points to, which the entry itself never
    prevents: any live object that nothing references can be collected,
    and then no id resolves to it any more. *)
Theorem registry_is_weak (ls : list label) (w : World) (l : label) (w' : World) :
  steps initial_world ls w ->
  step w l w' ->
  (forall i a, lookup_visual i w = Some a -> a ∈ live w)
  /\ (forall i a, lookup_visual i w = Some a ->
        lookup_visual i w'
        = match l with
          | LCollect b => if decide (a = b) then None else Some a
          | _ => Some a
          end)
  /\ (forall a, a ∈ live w -> a ∉ referenced w ->
        step w (LCollect a) (collect a w)
        /\ forall i, lookup_visual i (collect a w) ≠ Some a).
Proof.
  intros Hreach Hstep.
  pose proof (steps_sound _ _ _ initial_world_sound Hreach) as Hsound.
  split; [intros i a Hi; by destruct (Hsound i a Hi)|]. split.
  - intros i a Hi. destruct (Hsound i a Hi) as [_ Hlt].
    apply step_effect in Hstep.
    destruct l as [cls self args kwargs j|cls self args kwargs e|b|b];
      cbn in Hstep.
    + destruct Hstep as (-> & _ & Hreg & _). unfold lookup_visual in *.
      rewrite Hreg, lookup_insert_ne by lia. done.
    + destruct Hstep as (_ & Hreg & _). unfold lookup_visual in *.
      by rewrite Hreg.
    + by subst w'.
    + destruct Hstep as (-> & _). by rewrite collect_lookup, Hi.
  - intros a Hlive Hunref. split; [by apply step_collect|].
    intros i. rewrite collect_lookup.
    destruct (lookup_visual i w) as [b|]; [|done].
    destruct (decide (b = a)); [done | congruence].
Qed.

Lemma registry_is_weak_witness :
  (forall i a, lookup_visual i world1_released = Some a -> a ∈ live world1_released)
  /\ (forall i a, lookup_visual i world1_released = Some a ->
        lookup_visual i (collect 1%positive world1_released)
        = if decide (a = 1%positive) then None else Some a)
  /\ (forall a, a ∈ live world1_released -> a ∉ referenced world1_released ->
        step world1_released (LCollect a) (collect a world1_released)
        /\ forall i, lookup_visual i (collect a world1_released) ≠ Some a).
Proof.
  apply (registry_is_weak _ world1_released (LCollect 1%positive) _ sample_run).
  apply step_collect; apply sample_collectable.
Defined.

(** A longer run: two nodes are built, then the first is dropped and
    collected. *)
Lemma sample_run2 : steps initial_world
  [LConstruct Line 1%positive [] ∅ 1; LConstruct Line 2%positive [] ∅ 2;
   LRelease 1%positive; LCollect 1%positive]
  (collect 1%positive (release 1%positive world2)).
Proof.
  eapply steps_cons; [apply sample_construction|].
  eapply steps_cons.
  { apply step_construct; [vm_compute; discriminate | by vm_compute | by vm_compute]. }
  eapply steps_cons; [apply step_release|].
  eapply steps_cons; [|apply steps_nil].
  apply step_collect; vm_compute; [done | discriminate].
Qed.

Lemma visual_ids_strictly_increasing_witness :
  assigned_ids
    [LConstruct Line 1%positive [] ∅ 1; LConstruct Line 2%positive [] ∅ 2;
     LRelease 1%positive; LCollect 1%positive]
    = seqZ 1 2
  /\ StronglySorted Z.lt
       (assigned_ids
          [LConstruct Line 1%positive [] ∅ 1; LConstruct Line 2%positive [] ∅ 2;
           LRelease 1%positive; LCollect 1%positive])
  /\ NoDup
       (assigned_ids
          [LConstruct Line 1%positive [] ∅ 1; LConstruct Line 2%positive [] ∅ 2;
           LRelease 1%positive; LCollect 1%positive])
  /\ _next_id (collect 1%positive (release 1%positive world2)) = 1 + 2.
Proof.
  exact (visual_ids_strictly_increasing initial_world _ _ sample_run2).
Defined.

(** After that run id 1 resolves to nothing, id 2 still to object 2. *)
Example sample_lookups :
  lookup_visual 1 (collect 1%positive (release 1%positive world2)) = None
  /\ lookup_visual 2 (collect 1%positive (release 1%positive world2))
     = Some 2%positive.
Proof. by vm_compute. Qed.

End RuntimeFacts.

Section FactoryExamples.
Import Construction Samples.

(** [LineVisual] passes and yields [scene.Line]. *)
Example create_visual_node_Line :
  create_visual_node no_docs sample_type_new LineVisual = Return Line.
Proof. reflexivity. Qed.

(** [FancyLineVisual] passes both checks, but derives from [VisualNode]
    already: [type] finds no method resolution order and its [TypeError]
    leaves the factory. *)
Example create_visual_node_FancyLine :
  endswith (__name__ FancyLineVisual) "Visual" = true
  /\ issubclass FancyLineVisual "BaseVisual" = true
  /\ create_visual_node no_docs sample_type_new FancyLineVisual
     = Raise mro_conflict.
Proof. repeat split. Qed.

(** [LineHelper] is a drawable with a wrong name. *)
Lemma create_visual_node_contract_witness :
  create_visual_node no_docs sample_type_new LineHelper
    = Raise (RuntimeError
        (String.append (String.append "Class " dquote)
           (String.append "LineHelper"
              (String.append dquote
                 " must end with Visual, and must subclass BaseVisual"))))
  /\ forall cls : NodeClass,
       create_visual_node no_docs sample_type_new LineHelper <> Return cls.
Proof.
  apply (create_visual_node_contract no_docs sample_type_new LineHelper).
  left. reflexivity.
Defined.

(** A constructor that raises leaves the counter and the registry alone. *)
Example broken_drawable_consumes_no_id :
  let r := composite___init__ BrokenVisual 1%positive [] ∅ initial_world in
  r.1 = Raise (OtherError "ValueError" "bad data")
  /\ _next_id r.2 = 1
  /\ log r.2 = [EvSetName 1%positive PyNone; EvDrawable 1%positive 7%nat].
Proof. by vm_compute. Qed.

End FactoryExamples.

Section TransformFacts.
Import Transforms Samples.

Variable own_mul : string -> option method.
Variable own_rmul : string -> option method.
Variable subclass_of : string -> string -> bool.

(** On a generic right operand, attribute lookup of [__rmul__] ends at the
    base class. *)
Lemma lookup_rmul_generic (t : Transform) :
  generic own_mul own_rmul t -> lookup_rmul own_rmul t = Transform___rmul__.
Proof. intros [_ Hr]. unfold lookup_rmul. by rewrite Hr. Qed.

Lemma lookup_mul_generic (t : Transform) :
  generic own_mul own_rmul t ->
  lookup_mul own_mul own_rmul t = Transform___mul__ own_rmul.
Proof. intros [Hm _]. unfold lookup_mul. by rewrite Hm. Qed.

(** The base [__mul__] never answers [NotImplemented] to a generic right
    operand: it hands over to that operand's [__rmul__]. *)
Lemma Transform___mul___generic (a b : Transform) :
  generic own_mul own_rmul b ->
  Transform___mul__ own_rmul a b = Value (ChainTransform [a; b]).
Proof.
  intros Hb. unfold Transform___mul__. by rewrite lookup_rmul_generic.
Qed.

(** Forward mapping through a two-member chain. *)
Lemma map_forward_pair (coord : Type)
    (instance_map : string -> addr -> coord -> option coord)
    (a b : Transform) (x : coord) :
  map_forward coord instance_map (ChainTransform [a; b]) x
  = map_forward coord instance_map b x ≫= map_forward coord instance_map a.
Proof. reflexivity. Qed.


End TransformFacts.

Section TransformExamples.
Import Transforms Samples.


(** The product of the two samples maps (3, 4) to (7, 8): doubled first,
    shifted last. *)
Example sample_chain_map :
  map_forward (Z * Z) sample_map (ChainTransform [translateA; translateB]) (3, 4)
  = Some (7, 8).
Proof. reflexivity. Qed.

(** A class that redefines the protocol gets its say: here the product is
    not a chain. *)
Example overriding_kind_is_asked_first :
  mul sample_own_mul sample_own_rmul sample_subclass_of null translateB
    = Value translateB
  /\ mul sample_own_mul sample_own_rmul sample_subclass_of translateA null
    = Value translateA.
Proof. split; reflexivity. Qed.

End TransformExamples.

Section PlotFacts.
Import Construction Plot.

Variables Grid PlotWidget Idx : Type.
Variable grid___getitem__ : Grid -> Idx -> Result PlotWidget * Grid.

#[local] Abbreviation Fig := (Fig Grid).
#[local] Abbreviation getitem := (Fig___getitem__ Grid PlotWidget Idx grid___getitem__).
#[local] Abbreviation index_times := (index_times Grid PlotWidget Idx grid___getitem__).
#[local] Abbreviation grid_times := (grid_times Grid PlotWidget Idx grid___getitem__).
#[local] Abbreviation returned := (returned PlotWidget).

(** One evaluation of [fig[idxs]]: whatever the grid hands back is returned,
    and a widget handed back has been appended to the list by then. *)
Lemma getitem_effect (idxs : Idx) (fig : Fig) (h : gmap addr (list PlotWidget))
    (l : list PlotWidget) :
  h !! _plot_widgets Grid fig = Some l ->
  getitem idxs (fig, h)
  = ((grid___getitem__ (_grid Grid fig) idxs).1,
     ({| _grid := (grid___getitem__ (_grid Grid fig) idxs).2;
         _plot_widgets := _plot_widgets Grid fig |},
      <[_plot_widgets Grid fig :=
          l ++ returned [(grid___getitem__ (_grid Grid fig) idxs).1]]> h)).
Proof.
  intros Hl. unfold Fig___getitem__.
  destruct (grid___getitem__ (_grid Grid fig) idxs) as [[pw|e] g']; cbn.
  - do 2 f_equal. apply map_eq. intros a.
    destruct (decide (a = _plot_widgets Grid fig)) as [->|Hne].
    + by rewrite lookup_alter_eq, lookup_insert_eq, Hl.
    + by rewrite lookup_alter_ne, lookup_insert_ne.
  - do 2 f_equal. rewrite app_nil_r. symmetry. by apply insert_id.
Qed.

Lemma index_times_effect (k : nat) (idxs : Idx) (fig : Fig)
    (h : gmap addr (list PlotWidget)) (l : list PlotWidget) :
  h !! _plot_widgets Grid fig = Some l ->
  index_times k idxs (fig, h)
  = ((grid_times k idxs (_grid Grid fig)).1,
     ({| _grid := (grid_times k idxs (_grid Grid fig)).2;
         _plot_widgets := _plot_widgets Grid fig |},
      <[_plot_widgets Grid fig :=
          l ++ returned (grid_times k idxs (_grid Grid fig)).1]> h)).
Proof.
  revert fig h l. induction k as [|k IH]; intros fig h l Hl.
  - cbn. rewrite app_nil_r, insert_id by done. by destruct fig.
  - cbn [Plot.index_times Plot.grid_times].
    rewrite (getitem_effect idxs fig h l Hl).
    destruct (grid___getitem__ (_grid Grid fig) idxs) as [r g1].
    cbn [fst snd].
    erewrite IH; [|cbn; apply lookup_insert_eq].
    cbn [_grid _plot_widgets].
    destruct (grid_times k idxs g1) as [rs g2]. cbn [fst snd].
    rewrite insert_insert_eq.
    do 3 f_equal. rewrite <- app_assoc. f_equal.
    by destruct r.
Qed.

(** Looking up a cell that is occupied and stays so gives the same widget
    every time. *)
Lemma grid_times_stable (k : nat) (idxs : Idx) (g : Grid) (pw : PlotWidget) :
  grid___getitem__ g idxs = (Return pw, g) ->
  grid_times k idxs g = (replicate k (Return pw), g).
Proof.
  intros Hstable. induction k as [|k IH]; [done|].
  cbn [Plot.grid_times]. by rewrite Hstable, IH.
Qed.

Lemma grid_times_length (k : nat) (idxs : Idx) (g : Grid) :
  length (grid_times k idxs g).1 = k.
Proof.
  revert g. induction k as [|k IH]; intros g; [done|].
  cbn [Plot.grid_times]. destruct (grid___getitem__ g idxs) as [r g1].
  specialize (IH g1). destruct (grid_times k idxs g1) as [rs g2].
  cbn in *. by rewrite IH.
Qed.

Lemma returned_replicate (k : nat) (pw : PlotWidget) :
  returned (replicate k (Return pw)) = replicate k pw.
Proof. induction k as [|k IH]; [done|]. cbn. f_equal. exact IH. Qed.

(** C10: [k] evaluations of [fig[idxs]] return what the grid hands back,
    call by call, and append every widget handed back to the one list object
    of the figure, in order; the same widget handed back [k] times is
    recorded [k] times. [plot_widgets] yields a tuple of the list's current
    contents, not the list: a tuple taken earlier still reads as the old
    contents after later indexing, while the list object has grown. *)
Theorem fig_getitem_records_every_call (k : nat) (idxs : Idx) (fig : Fig)
    (h : gmap addr (list PlotWidget)) (l : list PlotWidget) (pw : PlotWidget) :
  h !! _plot_widgets Grid fig = Some l ->
  let r := index_times k idxs (fig, h) in
  r.1 = (grid_times k idxs (_grid Grid fig)).1
  /\ length r.1 = k
  /\ _plot_widgets Grid r.2.1 = _plot_widgets Grid fig
  /\ r.2.2 = <[_plot_widgets Grid fig := l ++ returned r.1]> h
  /\ plot_widgets Grid PlotWidget r.2.1 r.2.2 = PyTuple PlotWidget (l ++ returned r.1)
  /\ items_of PlotWidget (plot_widgets Grid PlotWidget fig h) r.2.2 = l
  /\ items_of PlotWidget (PyList PlotWidget (_plot_widgets Grid fig)) r.2.2
     = l ++ returned r.1
  /\ (grid___getitem__ (_grid Grid fig) idxs = (Return pw, _grid Grid fig) ->
      returned r.1 = replicate k pw).
Proof.
  intros Hl. cbv zeta. rewrite (index_times_effect k idxs fig h l Hl).
  cbn [fst snd _plot_widgets].
  split; [done|]. split; [apply grid_times_length|]. split; [done|].
  split; [done|].
  unfold plot_widgets, items_of. cbn [_plot_widgets].
  rewrite lookup_insert_eq, Hl. cbn.
  repeat split.
  intros Hstable. rewrite (grid_times_stable k idxs _ pw Hstable).
  cbn [fst]. apply returned_replicate.
Qed.

End PlotFacts.

Section PlotExamples.
Import Construction Plot Samples.

(** Three evaluations of [fig[0]] on a fresh figure: the first creates
    widget 0, the next two find it; it is recorded three times. *)
Example sample_fig_three_times :
  let r := index_times _ _ _ sample_grid___getitem__ 3 0%nat sample_fig in
  r.1 = [Return 0%nat; Return 0%nat; Return 0%nat]
  /\ plot_widgets _ _ r.2.1 r.2.2 = PyTuple _ [0%nat; 0%nat; 0%nat].
Proof. by vm_compute. Qed.

Lemma fig_getitem_records_every_call_witness :
  let r := index_times _ _ _ sample_grid___getitem__ 2 0%nat sample_fig1 in
  r.1 = (grid_times _ _ _ sample_grid___getitem__ 2 0%nat (_grid _ sample_fig1.1)).1
  /\ length r.1 = 2%nat
  /\ _plot_widgets _ r.2.1 = _plot_widgets _ sample_fig1.1
  /\ r.2.2 = <[_plot_widgets _ sample_fig1.1 := [0%nat] ++ returned _ r.1]> sample_fig1.2
  /\ plot_widgets _ _ r.2.1 r.2.2 = PyTuple _ ([0%nat] ++ returned _ r.1)
  /\ items_of _ (plot_widgets _ _ sample_fig1.1 sample_fig1.2) r.2.2 = [0%nat]
  /\ items_of _ (PyList _ (_plot_widgets _ sample_fig1.1)) r.2.2
     = [0%nat] ++ returned _ r.1
  /\ (sample_grid___getitem__ (_grid _ sample_fig1.1) 0%nat
        = (Return 0%nat, _grid _ sample_fig1.1) ->
      returned _ r.1 = replicate 2 0%nat).
Proof.
  apply (fig_getitem_records_every_call _ _ _ sample_grid___getitem__
           2 0%nat sample_fig1.1 sample_fig1.2 [0%nat] 0%nat).
  by vm_compute.
Defined.

End PlotExamples.

Section SceneOpsFacts.
Import Scene SceneOps.

Lemma picking_setter_tree_map p n :
  (picking_setter p n).1 = tree_map (assign_picking p) n.
Proof.
  induction n as [st cs IH] using VisualNode_tree_ind.
  pose proof (picking_setter_children p st cs) as Hc.
  pose proof (picking_setter_state p st cs) as Hs.
  destruct (picking_setter p (Node st cs)).1 as [st' cs'].
  cbn in Hc, Hs. subst st' cs'. cbn [tree_map]. f_equal.
  induction IH as [|c cs Hc _ IHcs]; [done|].
  cbn [map]. by rewrite Hc, IHcs.
Qed.

Lemma picking_setter_postorder p n :
  (picking_setter p n).2
  = flat_map (fun st => if Bool.eqb (_picking st) p then []
                        else local_picking_events p st)
             (postorder n).
Proof.
  induction n as [st cs IH] using VisualNode_tree_ind.
  rewrite picking_setter_events. cbn [postorder].
  rewrite flat_map_app. cbn [flat_map]. rewrite app_nil_r. f_equal.
  induction IH as [|c cs Hc _ IHcs]; [done|].
  cbn [flat_map]. by rewrite flat_map_app, Hc, IHcs.
Qed.

Lemma flat_map_concat_map_nested {A B C} (f : B -> list C) (g : A -> list B)
    (l : list A) :
  flat_map f (flat_map g l) = flat_map (fun a => flat_map f (g a)) l.
Proof.
  induction l as [|a l IH]; [done|].
  cbn [flat_map]. by rewrite flat_map_app, IH.
Qed.

(** C4: assigning the value the node already holds still runs the
    assignment through the whole subtree below it: every child comes back
    with the flag, the filter switch and the blend state overwritten on
    each of its nodes whose flag differed, so that every descendant holds
    [p] afterwards, and the calls made are those of these nodes, in
    post-order. The node's own record (flag, filter switch, blend state)
    is left as it was and no local call is made. *)
Theorem picking_setter_redundant (p : bool) (st : VisualNodeState)
    (cs : list VisualNode) :
  _picking st = p ->
  picking_setter p (Node st cs)
  = (Node st (map (tree_map (assign_picking p)) cs),
     flat_map
       (fun c =>
          flat_map (fun s => if Bool.eqb (_picking s) p then []
                             else [EvPickingFilterEnabled (self_ s) p;
                                   EvUpdateGlState (self_ s) (negb p)])
                   (postorder c))
       cs)
  /\ Forall (fun d => _picking (state d) = p)
            (descendants (picking_setter p (Node st cs)).1).
Proof.
  intros Hsame. split; [|apply picking_setter_descendants].
  rewrite (surjective_pairing (picking_setter p (Node st cs))).
  rewrite picking_setter_tree_map, picking_setter_postorder.
  cbn [tree_map postorder]. unfold assign_picking at 1.
  rewrite Hsame, Bool.eqb_reflx. f_equal.
  rewrite flat_map_app. cbn [flat_map].
  rewrite Hsame, Bool.eqb_reflx, !app_nil_r.
  apply flat_map_concat_map_nested.
Qed.

Lemma postorder_tree_map f n :
  postorder (tree_map f n) = map f (postorder n).
Proof.
  induction n as [st cs IH] using VisualNode_tree_ind.
  cbn [tree_map postorder]. rewrite map_app. f_equal.
  induction IH as [|c cs Hc _ IHcs]; [done|].
  cbn [map flat_map]. by rewrite map_app, Hc, IHcs.
Qed.

(** On a subtree that holds [p] everywhere the assignment does nothing. *)
Lemma tree_map_settled p n :
  Forall (fun st => _picking st = p) (postorder n) ->
  tree_map (assign_picking p) n = n.
Proof.
  induction n as [st cs IH] using VisualNode_tree_ind.
  cbn [postorder tree_map]. intros Hall.
  apply Forall_app in Hall as [Hcs Hst].
  apply Forall_inv in Hst. f_equal.
  - unfold assign_picking. by rewrite Hst, Bool.eqb_reflx.
  - induction IH as [|c cs Hc _ IHcs]; [done|].
    cbn [flat_map] in Hcs. apply Forall_app in Hcs as [H1 H2].
    cbn [map]. by rewrite (Hc H1), IHcs.
Qed.

Lemma picking_setter_settled p n :
  Forall (fun st => _picking st = p) (postorder n) ->
  picking_setter p n = (n, []).
Proof.
  intros Hall. rewrite (surjective_pairing (picking_setter p n)).
  rewrite picking_setter_tree_map, picking_setter_postorder.
  rewrite (tree_map_settled p n Hall). f_equal.
  induction Hall as [|st l Hst _ IHl]; [done|].
  cbn [flat_map]. by rewrite Hst, Bool.eqb_reflx, IHl.
Qed.

Lemma assign_picking_flag p st : _picking (assign_picking p st) = p.
Proof.
  unfold assign_picking. destruct (Bool.eqb (_picking st) p) eqn:E; [|done].
  by apply Bool.eqb_prop in E.
Qed.

(** X1: the tree after [picking = p] is the tree before with the flag, the
    filter switch and the blend state overwritten on exactly the nodes
    whose flag differed; shape, identities, ids, [interactive] flags and
    clippers are those from before. The filter and GL-state calls are
    issued in post-order, a node after all of its descendants. *)
Theorem picking_setter_characterised (p : bool) (n : VisualNode) :
  (picking_setter p n).1 = tree_map (assign_picking p) n
  /\ (picking_setter p n).2
     = flat_map (fun st => if Bool.eqb (_picking st) p then []
                           else [EvPickingFilterEnabled (self_ st) p;
                                 EvUpdateGlState (self_ st) (negb p)])
                (postorder n).
Proof.
  split; [apply picking_setter_tree_map | apply picking_setter_postorder].
Qed.

(** X2: assigning the same value twice in a row: the second assignment
    changes no node of the subtree and issues no call at all. *)
Theorem picking_setter_idempotent (p : bool) (n : VisualNode) :
  picking_setter p (picking_setter p n).1 = ((picking_setter p n).1, []).
Proof.
  apply picking_setter_settled.
  rewrite picking_setter_tree_map, postorder_tree_map.
  apply Forall_map, Forall_forall. intros st _. apply assign_picking_flag.
Qed.

(** X3: if on every node of a subtree the filter switch equals the flag and
    the blend state is its complement, the same holds after any
    assignment of [picking]. *)
Theorem picking_setter_keeps_sync (p : bool) (n : VisualNode) :
  Forall (fun st => in_sync st = true) (postorder n) ->
  Forall (fun st => in_sync st = true) (postorder (picking_setter p n).1).
Proof.
  intros Hsync.
  rewrite picking_setter_tree_map, postorder_tree_map.
  apply Forall_map. eapply Forall_impl; [exact Hsync|].
  intros st Hst. unfold assign_picking.
  destruct (Bool.eqb (_picking st) p); [exact Hst|].
  unfold in_sync, set_local_picking. cbn. by rewrite !Bool.eqb_reflx.
Qed.

(** X4: after [picking = p] on a root, a node of the subtree makes its
    drawable-level draw call exactly when [p] is false or the node was
    interactive before the assignment. *)
Theorem draw_after_picking (p : bool) (n : VisualNode) :
  map draw (postorder (picking_setter p n).1)
  = map (fun st => if p && negb (_interactive st) then []
                   else [EvSuperclassDraw (_visual_superclass st) (self_ st)])
        (postorder n).
Proof.
  rewrite picking_setter_tree_map, postorder_tree_map, map_map.
  apply map_ext. intros st. unfold draw.
  rewrite assign_picking_flag. unfold assign_picking.
  by destruct (Bool.eqb (_picking st) p).
Qed.

End SceneOpsFacts.

Section ClipperFacts.
Import Scene SceneOps Samples.

(** The map a call leaves behind. *)
Lemma set_clipper_map node clipper st :
  _clippers (_set_clipper node clipper st).1
  = match clipper with
    | Some c => <[node := c]> (_clippers st)
    | None => delete node (_clippers st)
    end.
Proof.
  unfold _set_clipper.
  destruct (_clippers st !! node) as [old|] eqn:Hold; destruct clipper as [c|];
    cbn [fst _clippers].
  - apply insert_delete_eq.
  - done.
  - done.
  - symmetry. by apply delete_id.
Qed.

Lemma set_clipper_self node clipper st :
  self_ (_set_clipper node clipper st).1 = self_ st.
Proof.
  unfold _set_clipper.
  by destruct (_clippers st !! node), clipper.
Qed.

Lemma set_clipper_events node clipper st :
  (_set_clipper node clipper st).2
  = match _clippers st !! node with
    | Some old => [EvDetach (self_ st) (ClipperItem old)]
    | None => []
    end
    ++ match clipper with
       | Some c => [EvAttach (self_ st) (ClipperItem c)]
       | None => []
       end.
Proof.
  unfold _set_clipper.
  by destruct (_clippers st !! node), clipper.
Qed.

(** Two node records with the same fields are equal. *)
Lemma state_eq (s t : VisualNodeState) :
  self_ s = self_ t -> _id s = _id t ->
  _visual_superclass s = _visual_superclass t ->
  _picking s = _picking t -> _interactive s = _interactive t ->
  _picking_filter_enabled s = _picking_filter_enabled t ->
  gl_blend s = gl_blend t -> _clippers s = _clippers t ->
  s = t.
Proof. destruct s, t. cbn. by intros -> -> -> -> -> -> -> ->. Qed.

Lemma set_clipper_frame node clipper st :
  (self_ (_set_clipper node clipper st).1 = self_ st)
  /\ (_id (_set_clipper node clipper st).1 = _id st)
  /\ (_visual_superclass (_set_clipper node clipper st).1 = _visual_superclass st)
  /\ (_picking (_set_clipper node clipper st).1 = _picking st)
  /\ (_interactive (_set_clipper node clipper st).1 = _interactive st)
  /\ (_picking_filter_enabled (_set_clipper node clipper st).1
      = _picking_filter_enabled st)
  /\ (gl_blend (_set_clipper node clipper st).1 = gl_blend st).
Proof.
  unfold _set_clipper.
  by destruct (_clippers st !! node), clipper.
Qed.

(** X5: a second [_set_clipper] for the same child overrides the first: the
    node ends as if only the second call had been made, and the second call
    detaches exactly what the first attached before attaching its own
    clipper. *)
Theorem set_clipper_overrides (node : addr) (c1 c2 : option addr)
    (st : VisualNodeState) :
  _set_clipper node c2 (_set_clipper node c1 st).1
  = ((_set_clipper node c2 st).1,
     match c1 with
     | Some c => [EvDetach (self_ st) (ClipperItem c)]
     | None => []
     end
     ++ match c2 with
        | Some c => [EvAttach (self_ st) (ClipperItem c)]
        | None => []
        end).
Proof.
  rewrite (surjective_pairing (_set_clipper node c2 _)). f_equal.
  - destruct (set_clipper_frame node c1 st) as (E1 & E2 & E3 & E4 & E5 & E6 & E7).
    destruct (set_clipper_frame node c2 st) as (F1 & F2 & F3 & F4 & F5 & F6 & F7).
    destruct (set_clipper_frame node c2 (_set_clipper node c1 st).1)
      as (G1 & G2 & G3 & G4 & G5 & G6 & G7).
    apply state_eq; try congruence.
    rewrite !set_clipper_map.
    destruct c1 as [a|], c2 as [b|].
    + apply insert_insert_eq.
    + apply delete_insert_eq.
    + by rewrite insert_delete_eq.
    + apply delete_delete_eq.
  - rewrite set_clipper_events, set_clipper_map, set_clipper_self.
    destruct c1 as [a|].
    + by rewrite lookup_insert_eq.
    + by rewrite lookup_delete_eq.
Qed.

(** X6: setting a clipper for a child that had none and then passing [None]
    for that child gives the node back exactly as it was; the log shows the
    clipper attached, then detached. *)
Theorem set_clipper_then_remove (node c : addr) (st : VisualNodeState) :
  _clippers st !! node = None ->
  _set_clipper node None (_set_clipper node (Some c) st).1
  = (st, [EvDetach (self_ st) (ClipperItem c)])
  /\ (_set_clipper node (Some c) st).2 = [EvAttach (self_ st) (ClipperItem c)].
Proof.
  intros Hnone. split.
  - rewrite (surjective_pairing (_set_clipper node None _)). f_equal.
    + destruct (set_clipper_frame node (Some c) st) as (E1 & E2 & E3 & E4 & E5 & E6 & E7).
      destruct (set_clipper_frame node None (_set_clipper node (Some c) st).1)
        as (G1 & G2 & G3 & G4 & G5 & G6 & G7).
      apply state_eq; try congruence.
      rewrite !set_clipper_map, delete_insert_eq. by apply delete_id.
    + rewrite set_clipper_events, set_clipper_map, set_clipper_self.
      by rewrite lookup_insert_eq.
  - by rewrite set_clipper_events, Hnone.
Qed.

Lemma set_clipper_then_remove_witness :
  _set_clipper 2%positive None
    (_set_clipper 2%positive (Some 9%positive) (sample_state 1%positive false false)).1
  = (sample_state 1%positive false false,
     [EvDetach 1%positive (ClipperItem 9%positive)])
  /\ (_set_clipper 2%positive (Some 9%positive) (sample_state 1%positive false false)).2
     = [EvAttach 1%positive (ClipperItem 9%positive)].
Proof.
  apply (set_clipper_then_remove 2%positive 9%positive
           (sample_state 1%positive false false)).
  reflexivity.
Defined.

(** *** Sequences of calls *)

Lemma recorded_delete c node (m : gmap addr addr) :
  recorded c m
  = (recorded c (delete node m)
     + match m !! node with
       | Some o => if decide (o = c) then 1 else 0
       | None => 0
       end)%nat.
Proof.
  unfold recorded. rewrite map_filter_delete.
  destruct (m !! node) as [o|] eqn:Hm.
  - destruct (decide (o = c)) as [->|Hne].
    + assert (Hf : filter (fun kv : addr * addr => kv.2 = c) m !! node = Some c)
        by by apply map_lookup_filter_Some.
      rewrite <- (insert_id _ _ _ Hf) at 1.
      rewrite <- insert_delete_eq.
      rewrite map_size_insert_None by apply lookup_delete_eq. lia.
    + rewrite delete_id; [lia|].
      apply map_lookup_filter_None. right. intros x Hx. cbn. congruence.
  - rewrite delete_id; [lia|].
    apply map_lookup_filter_None. by left.
Qed.

Lemma recorded_insert c node n (m : gmap addr addr) :
  recorded c (<[node := n]> m)
  = (recorded c (delete node m) + if decide (n = c) then 1 else 0)%nat.
Proof.
  rewrite (recorded_delete c node (<[node := n]> m)).
  by rewrite delete_insert_eq, lookup_insert_eq.
Qed.

Lemma attaches_app c l1 l2 :
  attaches c (l1 ++ l2) = (attaches c l1 + attaches c l2)%nat.
Proof. unfold attaches. by rewrite List.filter_app, length_app. Qed.

Lemma detaches_app c l1 l2 :
  detaches c (l1 ++ l2) = (detaches c l1 + detaches c l2)%nat.
Proof. unfold detaches. by rewrite List.filter_app, length_app. Qed.

Lemma set_clipper_balance c node clipper st :
  (attaches c (_set_clipper node clipper st).2 + recorded c (_clippers st)
   = detaches c (_set_clipper node clipper st).2
     + recorded c (_clippers (_set_clipper node clipper st).1))%nat.
Proof.
  rewrite set_clipper_events, set_clipper_map, attaches_app, detaches_app.
  rewrite (recorded_delete c node (_clippers st)).
  destruct clipper as [n|]; [rewrite recorded_insert|];
    destruct (_clippers st !! node) as [o|]; unfold attaches, detaches; cbn;
    repeat match goal with
           | |- context [Pos.eqb ?a ?b] => destruct (Pos.eqb_spec a b)
           | |- context [decide (?a = ?b)] => destruct (decide (a = b))
           end; subst; cbn; try lia; congruence.
Qed.

(** X7: over any sequence of [_set_clipper] calls on a node, attachments
    and detachments stay balanced with the record: for every clipper, the
    number of times it was attached, plus the number of children it was
    recorded for at the start, equals the number of times it was detached
    plus the number of children it is recorded for at the end. *)
Theorem set_clippers_balanced (c : addr) (calls : list (addr * option addr))
    (st : VisualNodeState) :
  (attaches c (set_clippers calls st).2 + recorded c (_clippers st)
   = detaches c (set_clippers calls st).2
     + recorded c (_clippers (set_clippers calls st).1))%nat.
Proof.
  revert st. induction calls as [|[node clipper] calls IH]; intros st.
  - cbn. unfold attaches, detaches. cbn. lia.
  - cbn [set_clippers].
    pose proof (set_clipper_balance c node clipper st) as H1.
    destruct (_set_clipper node clipper st) as [st1 ev1].
    specialize (IH st1). destruct (set_clippers calls st1) as [st2 ev2].
    cbn [fst snd] in *. rewrite attaches_app, detaches_app. lia.
Qed.

(** X8: after any sequence of [_set_clipper] calls, the clipper recorded for
    a child is the one passed by the last call made for that child ([None]
    leaving no record); a child for which no call was made keeps what it
    had. *)
Theorem set_clippers_last_call (node : addr) (calls : list (addr * option addr))
    (st : VisualNodeState) :
  _clippers (set_clippers calls st).1 !! node
  = match last_call node calls with
    | Some clipper => clipper
    | None => _clippers st !! node
    end.
Proof.
  revert st. induction calls as [|[n clipper] calls IH]; intros st; [done|].
  cbn [set_clippers last_call].
  pose proof (set_clipper_map n clipper st) as Hmap.
  destruct (_set_clipper n clipper st) as [st1 ev1].
  specialize (IH st1). destruct (set_clippers calls st1) as [st2 ev2].
  cbn [fst snd] in *. rewrite IH.
  destruct (last_call node calls) as [later|]; [done|].
  rewrite Hmap. destruct (Pos.eqb_spec n node) as [->|Hne].
  - destruct clipper; [apply lookup_insert_eq | apply lookup_delete_eq].
  - destruct clipper; [by apply lookup_insert_ne | by apply lookup_delete_ne].
Qed.

End ClipperFacts.

Section RegistryFacts.
Import Construction Runtime RuntimeOps Samples.

(** While [a], registered under [i], is referenced, every step keeps it
    alive, referenced unless the step releases it, and registered. *)
Lemma held_step i a w l w' :
  held i a w -> step w l w' -> releases a l = false -> held i a w'.
Proof.
  intros (Hreg & Hlive & Href & Hlt) Hstep Hkeep.
  pose proof Hstep as Heff. apply step_effect in Heff.
  destruct l as [cls self args kwargs j|cls self args kwargs e|b|b];
    cbn in Heff, Hkeep.
  - destruct Heff as (-> & Hnext & Hids & Hl & Hr).
    unfold held, lookup_visual in *. rewrite Hids, Hl, Hr, Hnext.
    rewrite lookup_insert_ne by lia.
    repeat split; [done | by apply elem_of_union_r | by apply elem_of_union_r | lia].
  - destruct Heff as (Hnext & Hids & Hl & Hr).
    unfold held, lookup_visual in *. rewrite Hids, Hl, Hr, Hnext.
    repeat split; [done | by apply elem_of_union_r | by apply elem_of_union_r | lia].
  - subst w'. unfold held, lookup_visual, release in *. cbn.
    repeat split; try done.
    apply elem_of_difference. split; [done|].
    rewrite elem_of_singleton. intros ->. by rewrite Pos.eqb_refl in Hkeep.
  - destruct Heff as (-> & _ & Hunref).
    assert (a ≠ b) by (intros ->; contradiction).
    unfold held. rewrite collect_lookup, Hreg. cbn [collect live referenced _next_id].
    rewrite decide_False by done.
    repeat split; try done.
    apply elem_of_difference. split; [done|]. by rewrite elem_of_singleton.
Qed.

Lemma held_steps i a w ls w' :
  held i a w -> steps w ls w' -> forallb (fun l => negb (releases a l)) ls = true ->
  held i a w'.
Proof.
  intros Hheld Hsteps. revert Hheld.
  induction Hsteps as [|w l w1 ls w2 Hstep _ IH]; intros Hheld Hkeep; [done|].
  cbn in Hkeep. apply andb_true_iff in Hkeep as [Hl Hls].
  apply IH; [|done]. eapply held_step; [done..|].
  by apply negb_true_iff.
Qed.

(** X9: a node that was constructed with id [i] and that client code has
    not released since stays alive and [i] keeps resolving to it, whatever
    else is constructed, released or collected in the meantime. *)
Theorem visual_resolves_while_referenced (cls : NodeClass) (a : addr)
    (args : list pyval) (kwargs : gmap string pyval) (i : Z)
    (w w1 w2 : World) (ls : list label) :
  step w (LConstruct cls a args kwargs i) w1 ->
  steps w1 ls w2 ->
  forallb (fun l => negb (releases a l)) ls = true ->
  lookup_visual i w2 = Some a /\ a ∈ live w2.
Proof.
  intros Hc Hsteps Hkeep.
  cut (held i a w2); [by intros (? & ? & _)|].
  eapply held_steps; [|done..].
  apply step_effect in Hc. cbn in Hc.
  destruct Hc as (-> & Hnext & Hids & Hl & Hr).
  unfold held, lookup_visual. rewrite Hids, Hl, Hr, Hnext, lookup_insert_eq.
  repeat split; [by apply elem_of_union_l, elem_of_singleton
                | by apply elem_of_union_l, elem_of_singleton | lia].
Qed.

Lemma step_construct_fresh cls self args kwargs i w w' :
  step w (LConstruct cls self args kwargs i) w' -> self ∉ live w.
Proof. by inversion 1. Qed.

Lemma tidy_step w l w' :
  registry_sound w -> registry_tidy w -> step w l w' -> registry_tidy w'.
Proof.
  intros Hsound (Hpos & Hlow & Hinj) Hstep.
  pose proof Hstep as Hfresh.
  apply step_effect in Hstep.
  destruct l as [cls self args kwargs k|cls self args kwargs e|b|b];
    cbn in Hstep.
  - apply step_construct_fresh in Hfresh.
    destruct Hstep as (-> & Hnext & Hids & Hl & Hr).
    unfold registry_tidy, lookup_visual in *. rewrite Hids, Hnext.
    split; [lia|]. split.
    + intros i a. destruct (decide (_next_id w = i)) as [<-|Hne]; [lia|].
      rewrite lookup_insert_ne by done. apply Hlow.
    + intros i j a.
      destruct (decide (_next_id w = i)) as [<-|Hi];
        destruct (decide (_next_id w = j)) as [<-|Hj]; [done|..].
      * rewrite lookup_insert_eq, lookup_insert_ne by done.
        intros [= <-] Hj'. by destruct (Hsound j self Hj').
      * rewrite lookup_insert_eq, lookup_insert_ne by done.
        intros Hi' [= <-]. by destruct (Hsound i self Hi').
      * rewrite !lookup_insert_ne by done. apply Hinj.
  - destruct Hstep as (Hnext & Hids & _).
    unfold registry_tidy, lookup_visual in *. by rewrite Hids, Hnext.
  - by subst w'.
  - destruct Hstep as (-> & _).
    unfold registry_tidy in *. cbn [collect _next_id].
    split; [done|]. split.
    + intros i a. rewrite collect_lookup.
      destruct (lookup_visual i w) as [c|] eqn:Hc; [|done].
      destruct (decide (c = b)); [done|]. intros [= <-]. by eapply Hlow.
    + intros i j a. rewrite !collect_lookup.
      destruct (lookup_visual i w) as [c|] eqn:Hc; [|done].
      destruct (lookup_visual j w) as [d|] eqn:Hd; [|by destruct (decide (c = b))].
      destruct (decide (c = b)); [done|]. destruct (decide (d = b)); [done|].
      intros [= <-] [= <-]. by eapply Hinj.
Qed.

Lemma tidy_steps w ls w' :
  registry_sound w -> registry_tidy w -> steps w ls w' -> registry_tidy w'.
Proof.
  intros Hsound Htidy Hsteps. revert Hsound Htidy.
  induction Hsteps as [|w l w1 ls w2 Hstep _ IH]; intros Hsound Htidy; [done|].
  apply IH; [by eapply step_sound | by eapply tidy_step].
Qed.

(** X10: in every world reachable from the start of the process, the ids
    in the registry lie between 1 and the counter (excluded), and no object
    is registered under two ids. *)
Theorem registry_ids_unique (ls : list label) (w : World) :
  steps initial_world ls w ->
  (forall i a, lookup_visual i w = Some a -> 1 <= i < _next_id w)
  /\ (forall i j a,
        lookup_visual i w = Some a -> lookup_visual j w = Some a -> i = j).
Proof.
  intros Hsteps.
  pose proof (steps_sound _ _ _ initial_world_sound Hsteps) as Hsound.
  assert (Htidy0 : registry_tidy initial_world).
  { unfold registry_tidy, lookup_visual. cbn.
    split; [lia|]. split; intros i; intros; by rewrite lookup_empty in *. }
  destruct (tidy_steps _ _ _ initial_world_sound Htidy0 Hsteps)
    as (_ & Hlow & Hinj).
  split; [|exact Hinj].
  intros i a Hi. split; [by eapply Hlow | by destruct (Hsound i a Hi)].
Qed.

End RegistryFacts.

Section FactoryAcceptFacts.
Import Construction Samples.

Variable generate_docstring : pyclass -> string -> option string.
Variable type_new : string -> pyclass -> option exn.


End FactoryAcceptFacts.

Section DispatchFacts.
Import Transforms Samples.

Variable own_mul : string -> option method.
Variable own_rmul : string -> option method.
Variable subclass_of : string -> string -> bool.

(** X12: with a left operand of the generic kind, the product [a * b] is
    decided by the right operand's [__rmul__] alone: what it answers is the
    result, whatever the classes of the two operands, and an answer of
    [NotImplemented] ends in [TypeError]. *)
Theorem generic_left_defers_to_right (a b : Transform) :
  own_mul (class_of a) = None ->
  mul own_mul own_rmul subclass_of a b
  = match lookup_rmul own_rmul b b a with
    | NotImplemented => Raised TypeError
    | r => r
    end.
Proof.
  intros Ha. unfold mul, lookup_mul, Transform___mul__. rewrite Ha.
  destruct (lookup_rmul own_rmul b b a) as [t| |e];
    destruct (negb (String.eqb (class_of a) (class_of b))
              && subclass_of (class_of b) (class_of a));
    try done.
  by destruct (String.eqb (class_of a) (class_of b)).
Qed.

End DispatchFacts.

Section PlotOpsFacts.
Import Construction Plot PlotOps.

Variables Grid PlotWidget Idx : Type.
Variable grid___getitem__ : Grid -> Idx -> Result PlotWidget * Grid.

Lemma index_each_effect (idxs : list Idx) (fig : Fig Grid)
    (h : gmap addr (list PlotWidget)) (l : list PlotWidget) :
  h !! _plot_widgets Grid fig = Some l ->
  index_each Grid PlotWidget Idx grid___getitem__ idxs (fig, h)
  = ((grid_each Grid PlotWidget Idx grid___getitem__ idxs (_grid Grid fig)).1,
     ({| _grid := (grid_each Grid PlotWidget Idx grid___getitem__ idxs
                     (_grid Grid fig)).2;
         _plot_widgets := _plot_widgets Grid fig |},
      <[_plot_widgets Grid fig :=
          l ++ returned PlotWidget
                 (grid_each Grid PlotWidget Idx grid___getitem__ idxs
                    (_grid Grid fig)).1]> h)).
Proof.
  revert fig h l. induction idxs as [|i idxs IH]; intros fig h l Hl.
  - cbn. rewrite app_nil_r, insert_id by done. by destruct fig.
  - cbn [index_each grid_each].
    rewrite (getitem_effect Grid PlotWidget Idx grid___getitem__ i fig h l Hl).
    destruct (grid___getitem__ (_grid Grid fig) i) as [r g1].
    cbn [fst snd].
    erewrite IH; [|cbn; apply lookup_insert_eq].
    cbn [_grid _plot_widgets].
    destruct (grid_each Grid PlotWidget Idx grid___getitem__ idxs g1) as [rs g2].
    cbn [fst snd]. rewrite insert_insert_eq.
    do 3 f_equal. rewrite <- app_assoc. f_equal.
    by destruct r.
Qed.

(** X13: over any sequence of indexings of a figure, into whatever cells,
    [plot_widgets] afterwards is what it was before followed by the widgets
    of the evaluations that returned, in call order; an evaluation in which
    the grid raised passes the exception on and records nothing. *)
Theorem plot_widgets_after_indexing (idxs : list Idx) (fig : Fig Grid)
    (h : gmap addr (list PlotWidget)) (l : list PlotWidget) :
  h !! _plot_widgets Grid fig = Some l ->
  let r := index_each Grid PlotWidget Idx grid___getitem__ idxs (fig, h) in
  r.1 = (grid_each Grid PlotWidget Idx grid___getitem__ idxs (_grid Grid fig)).1
  /\ plot_widgets Grid PlotWidget r.2.1 r.2.2
     = PyTuple PlotWidget (l ++ returned PlotWidget r.1)
  /\ length (returned PlotWidget r.1)
     = length (List.filter (fun x => match x with Return _ => true | Raise _ => false end)
                           r.1).
Proof.
  intros Hl. cbv zeta. rewrite (index_each_effect idxs fig h l Hl).
  cbn [fst snd]. split; [done|]. split.
  - unfold plot_widgets. cbn [_plot_widgets]. by rewrite lookup_insert_eq.
  - generalize (grid_each Grid PlotWidget Idx grid___getitem__ idxs (_grid Grid fig)).1.
    intros rs. induction rs as [|[pw|e] rs IH]; cbn; [done| |done].
    f_equal. exact IH.
Qed.

(** X14: every figure gets a list of its own: two figures created one after
    the other start with empty [plot_widgets], and indexing the first any
    number of times leaves the second one's [plot_widgets] empty. *)
Theorem figures_do_not_share_widgets (g1 g2 : Grid)
    (h : gmap addr (list PlotWidget)) (k : nat) (idxs : Idx) :
  let s1 := Fig___init__ Grid PlotWidget g1 h in
  let s2 := Fig___init__ Grid PlotWidget g2 s1.2 in
  let r := index_times Grid PlotWidget Idx grid___getitem__ k idxs (s1.1, s2.2) in
  plot_widgets Grid PlotWidget s1.1 s2.2 = PyTuple PlotWidget []
  /\ plot_widgets Grid PlotWidget s2.1 s2.2 = PyTuple PlotWidget []
  /\ _plot_widgets Grid s1.1 <> _plot_widgets Grid s2.1
  /\ plot_widgets Grid PlotWidget r.2.1 r.2.2
     = PyTuple PlotWidget (returned PlotWidget r.1)
  /\ plot_widgets Grid PlotWidget s2.1 r.2.2 = PyTuple PlotWidget [].
Proof.
  cbv zeta. unfold Fig___init__. cbn [fst snd].
  set (a1 := fresh (dom h)).
  set (h1 := <[a1 := []]> h).
  set (a2 := fresh (dom h1)).
  assert (Hne : a1 <> a2).
  { intros Heq. apply (is_fresh (dom h1)). fold a2. rewrite <- Heq.
    unfold h1. rewrite dom_insert_L. apply elem_of_union_l, elem_of_singleton. done. }
  assert (H1 : (<[a2 := []]> h1 : gmap addr (list PlotWidget)) !! a1 = Some []).
  { rewrite lookup_insert_ne by done. apply lookup_insert_eq. }
  rewrite (index_times_effect Grid PlotWidget Idx grid___getitem__ k idxs
             {| _grid := g1; _plot_widgets := a1 |} _ [] H1).
  unfold plot_widgets. cbn [fst snd _plot_widgets].
  rewrite H1, !lookup_insert_eq, lookup_insert_ne, lookup_insert_eq by done.
  done.
Qed.

End PlotOpsFacts.

Section TransformObjectFacts.
Import Construction TransformObject.

(** X15: after [Transform.__init__] on a fresh object whose class does not
    itself define [_shader_map] or [_shader_imap], [shader_map()] returns
    the [Function] built from the class's [glsl_map] when that is not
    [None], and raises [AttributeError] when it is [None]; likewise
    [shader_imap()] with [glsl_imap], each independently of the other. *)
Theorem shader_functions_need_glsl (self : addr) (own : gmap string tvalue) :
  own !! "_shader_map" = None ->
  own !! "_shader_imap" = None ->
  exists inst m im,
    getattr (subclass_attributes own) ∅ "glsl_map" = Return m
    /\ getattr (subclass_attributes own) ∅ "glsl_imap" = Return im
    /\ Transform___init__ self (subclass_attributes own) ∅ = Return inst
    /\ shader_map (subclass_attributes own) inst
       = match m with
         | TNone => Raise (AttributeError "_shader_map")
         | _ => Return (TFunction m)
         end
    /\ shader_imap (subclass_attributes own) inst
       = match im with
         | TNone => Raise (AttributeError "_shader_imap")
         | _ => Return (TFunction im)
         end.
Proof.
  intros Hm Him.
  assert (Hcm : subclass_attributes own !! "_shader_map" = None).
  { unfold subclass_attributes. apply lookup_union_None. split; [done|].
    by vm_compute. }
  assert (Hcim : subclass_attributes own !! "_shader_imap" = None).
  { unfold subclass_attributes. apply lookup_union_None. split; [done|].
    by vm_compute. }
  assert (Hg : exists m, subclass_attributes own !! "glsl_map" = Some m).
  { unfold subclass_attributes. destruct (own !! "glsl_map") as [v|] eqn:E.
    - exists v. by apply lookup_union_Some_l.
    - exists TNone. rewrite lookup_union_r by done. by vm_compute. }
  assert (Hgi : exists im, subclass_attributes own !! "glsl_imap" = Some im).
  { unfold subclass_attributes. destruct (own !! "glsl_imap") as [v|] eqn:E.
    - exists v. by apply lookup_union_Some_l.
    - exists TNone. rewrite lookup_union_r by done. by vm_compute. }
  destruct Hg as [m Hg], Hgi as [im Hgi].
  set (cls := subclass_attributes own) in *.
  assert (Hget : forall inst name v,
             inst !! name = None -> cls !! name = Some v ->
             getattr cls inst name = Return v).
  { intros inst name v H1 H2. unfold getattr. by rewrite H1, H2. }
  eexists _, m, im.
  split; [by apply Hget|]. split; [by apply Hget|].
  unfold Transform___init__, shader_map, shader_imap.
  rewrite (Hget _ "glsl_map" m) by (by rewrite ?lookup_insert_ne). 
  rewrite (Hget _ "glsl_imap" im)
    by (destruct m; by rewrite ?lookup_insert_ne).
  split; [reflexivity|].
  unfold getattr.
  destruct m, im;
    rewrite ?lookup_insert_eq, ?(lookup_insert_ne _ "_shader_imap" "_shader_map"),
            ?(lookup_insert_ne _ "_shader_map" "_shader_imap"),
            ?lookup_insert_eq,
            ?(lookup_insert_ne _ "changed" "_shader_map"),
            ?(lookup_insert_ne _ "changed" "_shader_imap"),
            ?lookup_empty, ?Hcm, ?Hcim by done; done.
Qed.

End TransformObjectFacts.

Section DocstringFacts.
Import Construction Docstring DocstringOps Samples.

Variable isspace : ascii -> bool.
Variable isword : ascii -> bool.

#[local] Abbreviation scan_line := (scan_line isspace isword).
#[local] Abbreviation scan_lines := (scan_lines isspace isword).
#[local] Abbreviation generated_lines := (generated_lines isspace isword).
#[local] Abbreviation generate_docstring := (generate_docstring isspace isword).
#[local] Abbreviation try_generate_docstring := (try_generate_docstring isspace isword).
#[local] Abbreviation docstring_lines := (docstring_lines isspace).

Lemma scan0_ok n : scan_ok n 0 scan0.
Proof. unfold scan_ok, scan0. cbn. repeat split; intros; discriminate. Qed.

(** One turn of the loop: no exception, and the variables stay
    consistent. *)
Lemma scan_line_ok n i line s :
  (i < n)%nat -> scan_ok n i s ->
  match scan_line i line s with
  | Raise _ => False
  | Return (Break s') => s' = s
  | Return (Next s') =>
      scan_ok n (i + 1)
        (if ((i + 1)%nat =? n)%nat && bool_decide (param_end s' = None)
         then {| params_started := params_started s';
                 param_indent := param_indent s';
                 first_blank := first_blank s';
                 param_end := Some (i + 1)%nat |}
         else s')
  end.
Proof.
  intros Hi (Hstart & Hfirst & Hend & Hord).
  assert (Hnone : params_started s = false -> param_end s = None).
  { intros Hs. destruct (param_end s) as [e|] eqn:He; [|done].
    destruct (Hend e eq_refl) as [_ [H|H]]; [congruence | lia]. }
  assert (Hclose : forall s',
    (params_started s' = true -> is_Some (param_indent s') /\ is_Some (first_blank s')) ->
    (forall f, first_blank s' = Some f -> (f < i + 1)%nat) ->
    (forall e, param_end s' = Some e -> (e <= i + 1)%nat /\ params_started s' = true) ->
    (forall f e, first_blank s' = Some f -> param_end s' = Some e -> (f < e)%nat) ->
    scan_ok n (i + 1)
      (if ((i + 1)%nat =? n)%nat && bool_decide (param_end s' = None)
       then {| params_started := params_started s';
               param_indent := param_indent s';
               first_blank := first_blank s';
               param_end := Some (i + 1)%nat |}
       else s')).
  { intros s' H1 H2 H3 H4.
    destruct ((i + 1 =? n)%nat && bool_decide (param_end s' = None)) eqn:E.
    - apply andb_true_iff in E as [En _]. apply Nat.eqb_eq in En.
      unfold scan_ok. cbn. split_and!.
      + exact H1.
      + exact H2.
      + intros e [= <-]. split; [lia | by right].
      + intros f e Hf [= <-]. by apply H2.
    - unfold scan_ok. split_and!.
      + exact H1.
      + exact H2.
      + intros e He. destruct (H3 e He). split; [done | by left].
      + exact H4. }
  unfold Docstring.scan_line.
  destruct (has_word isword line).
  - destruct (params_started s) eqn:Hs.
    + destruct (Hstart eq_refl) as [[pi Hpi] [f Hf]]. rewrite Hpi.
      destruct (indent_of isspace line <? pi)%nat; [done|].
      destruct ((indent_of isspace line =? pi)%nat
                && negb (match_param isspace line)); [done|].
      apply Hclose; cbn.
      * intros _. rewrite ?Hpi, ?Hf. split; by eexists.
      * intros f' Hf'. specialize (Hfirst f' Hf'). lia.
      * intros e [= <-]. split; [lia | done].
      * intros f' e Hf' [= <-]. specialize (Hfirst f' Hf'). lia.
    + specialize (Hnone eq_refl).
      destruct (match_heading isspace line).
      * apply Hclose; cbn.
        -- intros _. split; [done|]. by destruct (first_blank s).
        -- intros f'. destruct (first_blank s) as [f|] eqn:Hf; intros [= <-];
             [specialize (Hfirst f eq_refl)|]; lia.
        -- intros e He. congruence.
        -- intros f' e _ He. congruence.
      * apply Hclose.
        -- intros H. congruence.
        -- intros f' Hf'. specialize (Hfirst f' Hf'). lia.
        -- intros e He. congruence.
        -- intros f' e _ He. congruence.
  - destruct (bool_decide (first_blank s = None)
              && String.eqb (strip isspace line) EmptyString) eqn:E.
    + apply andb_true_iff in E as [Hfb _]. apply bool_decide_eq_true in Hfb.
      assert (Hs : params_started s = false).
      { destruct (params_started s) eqn:Hs; [|done].
        destruct (Hstart eq_refl) as [_ [f Hf]]. congruence. }
      specialize (Hnone Hs).
      apply Hclose; cbn.
      * intros H. congruence.
      * intros f' [= <-]. lia.
      * intros e He. congruence.
      * intros f' e _ He. congruence.
    + apply Hclose.
      * exact Hstart.
      * intros f' Hf'. specialize (Hfirst f' Hf'). lia.
      * intros e He. destruct (Hend e He) as [? [?|?]]; [split; [lia | done] | lia].
      * exact Hord.
Qed.

(** The whole loop: it returns, with consistent variables. *)
Lemma scan_lines_ok n i rest s :
  (i + length rest)%nat = n -> scan_ok n i s ->
  exists s' i', scan_lines n i rest s = Return s'
                /\ (i' <= n)%nat /\ scan_ok n i' s'.
Proof.
  revert i s. induction rest as [|line rest IH]; intros i s Hlen Hok.
  - exists s, i. cbn in *. split; [done|]. split; [lia | done].
  - cbn [Docstring.scan_lines]. cbn [length] in Hlen.
    pose proof (scan_line_ok n i line s ltac:(lia) Hok) as Hline.
    destruct (scan_line i line s) as [[s'|s']|e]; [| |done].
    + apply IH; [lia | exact Hline].
    + subst s'. exists s, i. split; [done|]. split; [lia | done].
Qed.

Lemma generated_lines_returns subclass clsname :
  exists lines, generated_lines subclass clsname = Return lines.
Proof.
  unfold Docstring.generated_lines.
  destruct (scan_lines_ok (length (docstring_lines subclass)) 0
              (docstring_lines subclass) scan0 eq_refl (scan0_ok _))
    as (s & i & -> & _).
  destruct (with_heading (docstring_lines subclass) s) as [[lines' fb] pe].
  by eexists.
Qed.

(** X16: [generate_docstring] raises for no docstring, [None] included: the
    comparison of an indentation with an unset [param_indent] is never
    reached. So the [except] branch of [create_visual_node] is never taken
    and every produced class carries the generated docstring. *)
Theorem generate_docstring_never_raises (subclass : pyclass) (clsname : string)
    (type_new : string -> pyclass -> option exn) :
  (exists d, generate_docstring subclass clsname = Return d)
  /\ forall cls,
       create_visual_node try_generate_docstring type_new subclass = Return cls ->
       exists d, generate_docstring subclass (node_name cls) = Return d
                 /\ node_doc cls = Some d.
Proof.
  assert (Hret : forall name, exists d, generate_docstring subclass name = Return d).
  { intros name. unfold Docstring.generate_docstring.
    destruct (generated_lines_returns subclass name) as [lines ->]. by eexists. }
  split; [apply Hret|].
  intros cls. unfold create_visual_node.
  destruct (negb _); [done|].
  destruct (type_new _ subclass); [done|].
  intros [= <-]. cbn [node_name node_doc].
  destruct (Hret (drop_last6 (__name__ subclass))) as [d Hd].
  exists d. split; [done|].
  unfold Docstring.try_generate_docstring. by rewrite Hd.
Qed.


(** *** The assembly *)

Lemma assemble_between {A} (L : list A) (f e : nat) (desc parm : A) :
  (f <= e)%nat -> (e <= length L)%nat ->
  py_slice None (Some f) L ++ [desc] ++ py_slice (Some f) (Some e) L ++ [parm]
    ++ py_slice (Some e) None L
  = insert_at (S e) parm (insert_at f desc L).
Proof.
  intros Hfe HeL. unfold py_slice, insert_at. cbn [default from_option id].
  rewrite Nat.sub_0_r, drop_0.
  assert (Hlen : length (take f L) = f) by (rewrite length_take; lia).
  replace (take (S e) (take f L ++ desc :: drop f L))
    with (take f L ++ desc :: take (e - f) (drop f L)).
  2:{ rewrite take_app_ge by (rewrite Hlen; lia). rewrite Hlen.
      replace (S e - f)%nat with (S (e - f)) by lia. done. }
  replace (drop (S e) (take f L ++ desc :: drop f L)) with (drop e L).
  2:{ rewrite drop_app_ge by (rewrite Hlen; lia). rewrite Hlen.
      replace (S e - f)%nat with (S (e - f)) by lia. cbn [drop].
      rewrite drop_drop. f_equal. lia. }
  rewrite (take_ge (drop e L)) by (rewrite length_drop; lia).
  by rewrite <- !app_assoc.
Qed.

Lemma assemble_open {A} (L : list A) (f : nat) (desc parm : A) :
  py_slice None (Some f) L ++ [desc] ++ py_slice (Some f) None L ++ [parm]
    ++ py_slice None None L
  = insert_at f desc L ++ parm :: L.
Proof.
  unfold py_slice, insert_at. cbn [default from_option id].
  rewrite !Nat.sub_0_r, !drop_0.
  rewrite (take_ge (drop f L)) by (rewrite length_drop; lia).
  rewrite (take_ge L (length L)) by lia.
  by rewrite <- !app_assoc.
Qed.

(** *** The loop before the parameter section *)

#[local] Abbreviation is_heading := (is_heading isspace isword).
#[local] Abbreviation is_blank := (is_blank isspace isword).
#[local] Abbreviation first_blank_index := (first_blank_index isspace isword).
#[local] Abbreviation first_blank_after := (first_blank_after isspace isword).

Lemma first_blank_index_le lines :
  (first_blank_index lines <= length lines)%nat.
Proof.
  induction lines as [|l lines IH]; cbn; [lia|].
  destruct (is_blank l); lia.
Qed.

Lemma first_blank_after_nil i fb : first_blank_after i [] fb = fb.
Proof. by destruct fb. Qed.

Lemma first_blank_after_cons i l pre fb :
  first_blank_after (i + 1) pre (first_blank_after i [l] fb)
  = first_blank_after i (l :: pre) fb.
Proof.
  destruct fb as [f|]; [done|].
  unfold DocstringOps.first_blank_after. cbn [DocstringOps.first_blank_index length].
  destruct (is_blank l); cbn; [done|].
  match goal with
  | |- (if ?c then _ else _) = _ => destruct c; [f_equal; lia | done]
  end.
Qed.

(** A line that is no heading, met before the section started. *)
Lemma scan_line_unstarted i l s :
  params_started s = false -> is_heading l = false ->
  scan_line i l s
  = Return (Next {| params_started := false;
                    param_indent := param_indent s;
                    first_blank := first_blank_after i [l] (first_blank s);
                    param_end := param_end s |}).
Proof.
  intros Hs Hl. unfold Docstring.scan_line, DocstringOps.is_heading in *.
  unfold DocstringOps.first_blank_after.
  cbn [DocstringOps.first_blank_index length]. unfold DocstringOps.is_blank.
  rewrite Hs. destruct s as [st pi fb pe]. cbn in *. subst st.
  destruct (has_word isword l); cbn in *.
  - rewrite Hl. by destruct fb.
  - destruct fb as [f|]; cbn; [done|].
    destruct (String.eqb (strip isspace l) EmptyString); cbn; [|done].
    by rewrite Nat.add_0_r.
Qed.

Lemma scan_unstarted n pre : forall rest i s,
  rest <> [] ->
  params_started s = false ->
  Forall (fun l => is_heading l = false) pre ->
  (i + length pre + length rest)%nat = n ->
  scan_lines n i (pre ++ rest) s
  = scan_lines n (i + length pre) rest
      {| params_started := false;
         param_indent := param_indent s;
         first_blank := first_blank_after i pre (first_blank s);
         param_end := param_end s |}.
Proof.
  induction pre as [|l pre IH]; intros rest i s Hrest Hs Hpre Hlen.
  - cbn [app length]. rewrite Nat.add_0_r, first_blank_after_nil.
    destruct s; cbn in *; by subst.
  - apply Forall_cons in Hpre as [Hl Hpre]. cbn [app length] in *.
    cbn [Docstring.scan_lines]. rewrite (scan_line_unstarted i l s Hs Hl).
    assert (Hn : ((i + 1 =? n)%nat = false)).
    { apply Nat.eqb_neq. destruct rest; [done|]. cbn in Hlen. lia. }
    rewrite Hn. cbn [andb].
    rewrite IH; [|done|done|done|lia]. cbn [param_indent first_blank param_end].
    rewrite first_blank_after_cons. f_equal. lia.
Qed.

Lemma scan_unstarted_all n pre : forall i s,
  params_started s = false ->
  Forall (fun l => is_heading l = false) pre ->
  (i + length pre)%nat = n ->
  exists s', scan_lines n i pre s = Return s'
             /\ params_started s' = false
             /\ first_blank s' = first_blank_after i pre (first_blank s).
Proof.
  induction pre as [|l pre IH]; intros i s Hs Hpre Hlen.
  - exists s. by rewrite first_blank_after_nil.
  - apply Forall_cons in Hpre as [Hl Hpre]. cbn [length] in Hlen.
    cbn [Docstring.scan_lines]. rewrite (scan_line_unstarted i l s Hs Hl).
    match goal with
    | |- context [scan_lines n (i + 1) pre ?st] =>
        assert (Hst : params_started st = false
                      /\ first_blank st = first_blank_after i [l] (first_blank s))
          by (by destruct (_ && _));
        destruct (IH (i + 1)%nat st) as (s' & Hrun & Hs' & Hfb);
        [apply Hst | done | lia |]
    end.
    exists s'. split; [done|]. split; [done|].
    rewrite Hfb. destruct Hst as [_ ->]. apply first_blank_after_cons.
Qed.

Lemma insert_at_after_heading {A} (lines heading : list A) (f : nat)
    (desc parm : A) :
  (f <= length lines)%nat ->
  insert_at (S (length (lines ++ heading))) parm
    (insert_at f desc (lines ++ heading))
  = insert_at f desc lines ++ heading ++ [parm].
Proof.
  intros Hf. unfold insert_at at 2 3.
  rewrite take_app_le, drop_app_le by lia.
  set (X := take f lines ++ desc :: drop f lines ++ heading).
  assert (HX : length X = S (length (lines ++ heading))).
  { unfold X. rewrite !length_app, length_take. cbn [length].
    rewrite length_app, length_drop. lia. }
  unfold insert_at. rewrite take_ge, drop_ge by lia.
  unfold X. rewrite <- !app_assoc. cbn [app]. by rewrite <- !app_assoc.
Qed.



(** *** Docstrings without text *)

Lemma lstrip_all_space l :
  all_space isspace l = true -> lstrip isspace l = EmptyString.
Proof.
  induction l as [|c l IH]; [done|]. cbn.
  intros H. apply andb_true_iff in H as [-> Hl]. by apply IH.
Qed.

Lemma strip_all_space l :
  all_space isspace l = true -> strip isspace l = EmptyString.
Proof.
  intros H. unfold strip. by rewrite (lstrip_all_space l H).
Qed.

Lemma split_lines_nonempty s : split_lines s <> [].
Proof.
  destruct s as [|c s]; cbn; [done|].
  destruct (Ascii.eqb c newline); [done|]. by destruct (split_lines s).
Qed.

Lemma split_lines_spaces s :
  whitespace_only isspace s = true ->
  Forall (fun l => all_space isspace l = true) (split_lines s).
Proof.
  induction s as [|c s IH]; cbn; intros H.
  - by constructor.
  - apply andb_true_iff in H as [Hc Hs]. specialize (IH Hs).
    destruct (Ascii.eqb c newline); [by constructor|].
    cbn in Hc.
    destruct (split_lines s) as [|first others]; [by repeat constructor; cbn; rewrite Hc|].
    apply Forall_cons in IH as [H1 H2].
    constructor; [|done]. cbn. by rewrite Hc, H1.
Qed.

Lemma drop_blank_spaces lines :
  Forall (fun l => all_space isspace l = true) lines ->
  drop_blank isspace lines = [].
Proof.
  induction 1 as [|l lines Hl _ IH]; [done|].
  cbn. by rewrite (strip_all_space l Hl).
Qed.


(** *** Leaving the parameter section at once *)

#[local] Abbreviation ends_params := (ends_params isspace isword).

(** Lines without word character, once [first_blank] is set. *)
Lemma scan_wordless n fill : forall rest i s,
  rest <> [] ->
  is_Some (first_blank s) ->
  Forall (fun l => has_word isword l = false) fill ->
  (i + length fill + length rest)%nat = n ->
  scan_lines n i (fill ++ rest) s = scan_lines n (i + length fill) rest s.
Proof.
  induction fill as [|l fill IH]; intros rest i s Hrest Hfb Hfill Hlen.
  - cbn [app length]. by rewrite Nat.add_0_r.
  - apply Forall_cons in Hfill as [Hl Hfill]. cbn [app length] in *.
    cbn [Docstring.scan_lines]. unfold Docstring.scan_line. rewrite Hl.
    destruct Hfb as [f Hf].
    rewrite bool_decide_eq_false_2 by congruence. cbn [andb].
    assert (Hn : ((i + 1 =? n)%nat = false)).
    { apply Nat.eqb_neq. destruct rest; [done|]. cbn in Hlen. lia. }
    rewrite Hn. cbn [andb].
    rewrite IH; [|done|by eexists|done|lia]. f_equal. lia.
Qed.

Lemma scan_leaves_at_once (lines pre fill post : list string)
    (heading bad : string) :
  lines = pre ++ heading :: fill ++ bad :: post ->
  Forall (fun l => is_heading l = false) pre ->
  is_heading heading = true ->
  Forall (fun l => has_word isword l = false) fill ->
  ends_params (indent_of isspace heading) bad = true ->
  scan_lines (length lines) 0 lines scan0
  = Return {| params_started := true;
              param_indent := Some (indent_of isspace heading);
              first_blank := Some (first_blank_index pre);
              param_end := None |}.
Proof.
  intros -> Hpre Hhead Hfill Hbad.
  set (n := length (pre ++ heading :: fill ++ bad :: post)).
  assert (Hn : n = (length pre + S (length fill + S (length post)))%nat).
  { unfold n. rewrite length_app. cbn [length]. rewrite length_app. done. }
  rewrite (scan_unstarted n pre (heading :: fill ++ bad :: post) 0 scan0);
    [|done|done|done|cbn [length]; rewrite length_app; cbn [length]; lia].
  cbn [scan0 param_indent first_blank param_end Nat.add].
  unfold DocstringOps.is_heading in Hhead.
  apply andb_true_iff in Hhead as [Hw Hm].
  cbn [Docstring.scan_lines]. unfold Docstring.scan_line at 1.
  rewrite Hw, Hm. cbn [params_started param_end first_blank].
  assert (Hnot : ((length pre + 1 =? n)%nat = false))
    by (apply Nat.eqb_neq; lia).
  rewrite Hnot. cbn [andb].
  assert (Hfb : match first_blank_after 0 pre None with
                | Some f => Some f
                | None => Some (length pre)
                end = Some (first_blank_index pre)).
  { unfold DocstringOps.first_blank_after.
    pose proof (first_blank_index_le pre).
    destruct (first_blank_index pre <? length pre)%nat eqn:E; [done|].
    apply Nat.ltb_ge in E. f_equal. lia. }
  rewrite Hfb.
  rewrite (scan_wordless n fill (bad :: post));
    [|done|by eexists|done|cbn [length]; lia].
  unfold DocstringOps.ends_params in Hbad.
  apply andb_true_iff in Hbad as [Hbw Hbi].
  cbn [Docstring.scan_lines]. unfold Docstring.scan_line. rewrite Hbw.
  cbn [params_started param_indent].
  destruct (indent_of isspace bad <? indent_of isspace heading)%nat; [done|].
  cbn [orb] in Hbi. by rewrite Hbi.
Qed.


(** *** The shape of the result *)

#[local] Abbreviation description_index := (description_index isspace isword).

Lemma description_index_le lines :
  (description_index lines <= length lines)%nat.
Proof.
  induction lines as [|l lines IH]; cbn; [lia|].
  destruct (is_blank l || is_heading l); lia.
Qed.

Lemma description_index_no_heading lines :
  Forall (fun l => is_heading l = false) lines ->
  description_index lines = first_blank_index lines.
Proof.
  induction 1 as [|l lines Hl _ IH]; [done|].
  cbn. rewrite Hl, orb_false_r, IH. done.
Qed.

Lemma description_index_heading pre h rest :
  Forall (fun l => is_heading l = false) pre ->
  is_heading h = true ->
  description_index (pre ++ h :: rest) = first_blank_index pre.
Proof.
  intros Hpre Hh. induction Hpre as [|l pre Hl _ IH].
  - cbn. by rewrite Hh, orb_true_r.
  - cbn. rewrite Hl, orb_false_r, IH. done.
Qed.

Lemma first_heading lines :
  existsb is_heading lines = true ->
  exists pre h rest,
    lines = pre ++ h :: rest
    /\ Forall (fun l => is_heading l = false) pre
    /\ is_heading h = true.
Proof.
  induction lines as [|l lines IH]; [done|]. cbn [existsb].
  destruct (is_heading l) eqn:Hl.
  - intros _. exists [], l, lines. by repeat split.
  - cbn [orb]. intros H. destruct (IH H) as (pre & h & rest & -> & Hpre & Hh).
    exists (l :: pre), h, rest. split; [done|]. split; [by constructor | done].
Qed.

Lemma no_heading lines :
  existsb is_heading lines = false ->
  Forall (fun l => is_heading l = false) lines.
Proof.
  induction lines as [|l lines IH]; [by constructor|]. cbn [existsb].
  intros H. apply orb_false_iff in H as [Hl H]. constructor; [done | by apply IH].
Qed.

(** Once the section has started, neither [params_started] nor
    [first_blank] changes any more. *)
Lemma scan_lines_started n rest : forall i s s',
  params_started s = true ->
  is_Some (first_blank s) ->
  scan_lines n i rest s = Return s' ->
  params_started s' = true /\ first_blank s' = first_blank s.
Proof.
  induction rest as [|l rest IH]; intros i s s' Hs Hfb Hrun.
  - cbn in Hrun. by injection Hrun as <-.
  - cbn [Docstring.scan_lines] in Hrun.
    assert (Hline : match scan_line i l s with
                    | Raise _ => True
                    | Return (Break t) => t = s
                    | Return (Next t) =>
                        params_started t = true /\ first_blank t = first_blank s
                    end).
    { unfold Docstring.scan_line. rewrite Hs.
      destruct (has_word isword l).
      - destruct (param_indent s) as [pi|]; [|done].
        destruct (indent_of isspace l <? pi)%nat; [done|].
        by destruct ((indent_of isspace l =? pi)%nat && negb (match_param isspace l)).
      - destruct Hfb as [f Hf].
        rewrite bool_decide_eq_false_2 by congruence. done. }
    destruct (scan_line i l s) as [[t|t]|e]; [| |done].
    + destruct Hline as [Ht Hft].
      match type of Hrun with
      | Docstring.scan_lines _ _ _ _ _ ?st = _ =>
          assert (Hst : params_started st = true /\ first_blank st = first_blank s)
            by (by destruct (_ && _));
          assert (Hsome : is_Some (first_blank st))
            by (rewrite (proj2 Hst); exact Hfb);
          pose proof (IH _ _ _ (proj1 Hst) Hsome Hrun) as [H1 H2]
      end.
      split; [done|]. by rewrite H2, (proj2 Hst).
    + subst t. by injection Hrun as <-.
Qed.

(** What the loop has found when it ends. *)
Lemma scan_summary lines s :
  scan_lines (length lines) 0 lines scan0 = Return s ->
  params_started s = existsb is_heading lines
  /\ first_blank s
     = if existsb is_heading lines
          || (description_index lines <? length lines)%nat
       then Some (description_index lines)
       else None.
Proof.
  intros Hrun. destruct (existsb is_heading lines) eqn:Hex.
  - destruct (first_heading lines Hex) as (pre & h & rest & -> & Hpre & Hh).
    rewrite (description_index_heading pre h rest Hpre Hh). cbn [orb].
    set (n := length (pre ++ h :: rest)) in *.
    assert (Hn : n = (length pre + S (length rest))%nat)
      by (unfold n; rewrite length_app; done).
    rewrite (scan_unstarted n pre (h :: rest) 0 scan0) in Hrun;
      [|done|done|done|cbn [length]; lia].
    cbn [scan0 param_indent first_blank param_end Nat.add] in Hrun.
    unfold DocstringOps.is_heading in Hh.
    apply andb_true_iff in Hh as [Hw Hm].
    cbn [Docstring.scan_lines] in Hrun. unfold Docstring.scan_line at 1 in Hrun.
    rewrite Hw, Hm in Hrun. cbn [params_started param_end first_blank] in Hrun.
    assert (Hfb : match first_blank_after 0 pre None with
                  | Some f => Some f
                  | None => Some (length pre)
                  end = Some (first_blank_index pre)).
    { unfold DocstringOps.first_blank_after.
      pose proof (first_blank_index_le pre).
      destruct (first_blank_index pre <? length pre)%nat eqn:E; [done|].
      apply Nat.ltb_ge in E. f_equal. lia. }
    rewrite Hfb in Hrun.
    match type of Hrun with
    | Docstring.scan_lines _ _ _ _ _ ?st = _ =>
        assert (Hst : params_started st = true
                      /\ first_blank st = Some (first_blank_index pre))
          by (by destruct (_ && _));
        assert (Hsome : is_Some (first_blank st))
          by (rewrite (proj2 Hst); by eexists);
        pose proof (scan_lines_started _ _ _ _ _ (proj1 Hst) Hsome Hrun)
          as [H1 H2]
    end.
    split; [done|]. by rewrite H2, (proj2 Hst).
  - pose proof (no_heading lines Hex) as Hnone.
    destruct (scan_unstarted_all (length lines) lines 0 scan0 eq_refl Hnone eq_refl)
      as (s' & Hrun' & Hs' & Hfb').
    rewrite Hrun in Hrun'. injection Hrun' as <-.
    split; [done|]. rewrite Hfb'. cbn [orb scan0 first_blank].
    unfold DocstringOps.first_blank_after.
    by rewrite (description_index_no_heading lines Hnone).
Qed.


End DocstringFacts.

Section ExtraExamples.
Import Scene SceneOps Construction Runtime RuntimeOps Transforms Plot PlotOps
       TransformObject Docstring DocstringOps Samples.

Lemma picking_setter_redundant_witness :
  picking_setter true sample_tree
  = (Node (sample_state 1%positive true false)
          (map (tree_map (assign_picking true)) (children sample_tree)),
     flat_map
       (fun c =>
          flat_map (fun s => if Bool.eqb (_picking s) true then []
                             else [EvPickingFilterEnabled (self_ s) true;
                                   EvUpdateGlState (self_ s) (negb true)])
                   (postorder c))
       (children sample_tree))
  /\ Forall (fun d => _picking (state d) = true)
            (descendants (picking_setter true sample_tree).1).
Proof.
  apply (picking_setter_redundant true (sample_state 1%positive true false)).
  reflexivity.
Defined.

(** The redundant assignment on the sample turns the one child that held
    [false], and only that node. *)
Example redundant_assignment_on_sample :
  (picking_setter true sample_tree).1
  = Node (sample_state 1%positive true false)
         [Node (set_local_picking true (sample_state 2%positive false false))
               [Node (sample_state 3%positive true true) []];
          Node (sample_state 4%positive true false) []].
Proof. reflexivity. Qed.

Lemma picking_setter_keeps_sync_witness :
  Forall (fun st => in_sync st = true)
         (postorder (picking_setter false sample_tree).1).
Proof.
  apply (picking_setter_keeps_sync false sample_tree).
  repeat constructor.
Defined.

(** On the sample tree a picking pass draws the one interactive node. *)
Example sample_picking_pass :
  map draw (postorder (picking_setter true sample_tree).1)
  = [[EvSuperclassDraw "LineVisual" 3%positive]; []; []; []].
Proof. reflexivity. Qed.

Lemma sample_construction2 :
  step world1 (LConstruct Line 2%positive [] ∅ 2) world2.
Proof.
  apply step_construct; [vm_compute; discriminate | by vm_compute | by vm_compute].
Qed.

Lemma visual_resolves_while_referenced_witness :
  lookup_visual 1 world2 = Some 1%positive /\ 1%positive ∈ live world2.
Proof.
  apply (visual_resolves_while_referenced Line 1%positive [] ∅ 1
           initial_world world1 world2 [LConstruct Line 2%positive [] ∅ 2]).
  - apply sample_construction.
  - eapply steps_cons; [apply sample_construction2 | apply steps_nil].
  - reflexivity.
Defined.

Lemma registry_ids_unique_witness :
  (forall i a,
     lookup_visual i (collect 1%positive (release 1%positive world2)) = Some a ->
     1 <= i < _next_id (collect 1%positive (release 1%positive world2)))
  /\ (forall i j a,
        lookup_visual i (collect 1%positive (release 1%positive world2)) = Some a ->
        lookup_visual j (collect 1%positive (release 1%positive world2)) = Some a ->
        i = j).
Proof.
  exact (registry_ids_unique _ _ sample_run2).
Defined.


Lemma generic_left_defers_to_right_witness :
  mul sample_own_mul sample_own_rmul sample_subclass_of translateA null
  = match lookup_rmul sample_own_rmul null null translateA with
    | NotImplemented => Raised TypeError
    | r => r
    end.
Proof.
  apply (generic_left_defers_to_right sample_own_mul sample_own_rmul
           sample_subclass_of translateA null).
  reflexivity.
Defined.

Lemma plot_widgets_after_indexing_witness :
  let r := index_each _ _ _ sample_grid___getitem__ [0%nat; 1%nat; 0%nat]
             sample_fig1 in
  r.1 = (grid_each _ _ _ sample_grid___getitem__ [0%nat; 1%nat; 0%nat]
           (_grid _ sample_fig1.1)).1
  /\ plot_widgets _ _ r.2.1 r.2.2 = PyTuple _ ([0%nat] ++ returned _ r.1)
  /\ length (returned _ r.1)
     = length (List.filter
                 (fun x => match x with Return _ => true | Raise _ => false end)
                 r.1).
Proof.
  apply (plot_widgets_after_indexing _ _ _ sample_grid___getitem__
           [0%nat; 1%nat; 0%nat] sample_fig1.1 sample_fig1.2 [0%nat]).
  by vm_compute.
Defined.

(** Cells 0, 1, 0 of the sample figure: widget 0 again, a new widget 1,
    widget 0 again. *)
Example sample_fig_cells :
  let r := index_each _ _ _ sample_grid___getitem__ [0%nat; 1%nat; 0%nat]
             sample_fig1 in
  plot_widgets _ _ r.2.1 r.2.2 = PyTuple _ [0%nat; 0%nat; 1%nat; 0%nat].
Proof. by vm_compute. Qed.

Lemma shader_functions_need_glsl_witness :
  exists inst m im,
    getattr (subclass_attributes forward_only) ∅ "glsl_map" = Return m
    /\ getattr (subclass_attributes forward_only) ∅ "glsl_imap" = Return im
    /\ Transform___init__ 1%positive (subclass_attributes forward_only) ∅
       = Return inst
    /\ shader_map (subclass_attributes forward_only) inst
       = match m with
         | TNone => Raise (AttributeError "_shader_map")
         | _ => Return (TFunction m)
         end
    /\ shader_imap (subclass_attributes forward_only) inst
       = match im with
         | TNone => Raise (AttributeError "_shader_imap")
         | _ => Return (TFunction im)
         end.
Proof.
  apply (shader_functions_need_glsl 1%positive forward_only); by vm_compute.
Defined.

(** With forward code only, [shader_map()] answers and [shader_imap()]
    raises. *)
Example forward_only_shaders :
  match Transform___init__ 1%positive (subclass_attributes forward_only) ∅ with
  | Return inst =>
      shader_map (subclass_attributes forward_only) inst
      = Return (TFunction (TCode "vec4 forward(vec4 pos) { return pos; }"))
      /\ shader_imap (subclass_attributes forward_only) inst
         = Raise (AttributeError "_shader_imap")
  | Raise _ => False
  end.
Proof. by vm_compute. Qed.

Lemma generate_docstring_never_raises_witness :
  (exists d, generate_docstring ascii_isspace ascii_isword LineVisual "Line"
             = Return d)
  /\ forall cls,
       create_visual_node (try_generate_docstring ascii_isspace ascii_isword)
         sample_type_new LineVisual = Return cls ->
       exists d, generate_docstring ascii_isspace ascii_isword LineVisual
                   (node_name cls) = Return d
                 /\ node_doc cls = Some d.
Proof.
  exact (generate_docstring_never_raises ascii_isspace ascii_isword
           LineVisual "Line" sample_type_new).
Defined.




(** A docstring written the numpy way: the description goes in front of the
    first blank line, the entries after the last documented parameter. *)
Example documented_docstring :
  generated_lines ascii_isspace ascii_isword DocumentedVisual "Documented"
  = Return ["Line visual"; class_desc "Documented"; EmptyString;
            "    Parameters"; "    ----------"; "    pos : array";
            "        Points of the line."; parm_doc; EmptyString;
            "    Notes"; "    Some notes."].
Proof. by vm_compute. Qed.

End ExtraExamples.

Section MoreComposition.
Import Scene SceneOps Transforms Samples.

(** X21: [interactive] is local and independent of [picking]: setting it on
    a node before or after an assignment of [picking] to that node gives the
    same subtree and the same calls; no child is touched by it. *)
Theorem interactive_commutes_with_picking (i p : bool) (st : VisualNodeState)
    (cs : list VisualNode) :
  picking_setter p (Node (interactive_setter i st) cs)
  = (Node (interactive_setter i (state (picking_setter p (Node st cs)).1))
          (children (picking_setter p (Node st cs)).1),
     (picking_setter p (Node st cs)).2).
Proof.
  rewrite (surjective_pairing (picking_setter p (Node (interactive_setter i st) cs))).
  rewrite !picking_setter_events.
  pose proof (picking_setter_children p (interactive_setter i st) cs) as Hc.
  pose proof (picking_setter_state p (interactive_setter i st) cs) as Hs.
  destruct (picking_setter p (Node (interactive_setter i st) cs)).1 as [st' cs'].
  cbn [children state] in Hc, Hs. subst st' cs'.
  rewrite picking_setter_children, picking_setter_state.
  cbn [interactive_setter _picking self_].
  by destruct (Bool.eqb (_picking st) p).
Qed.

Variable own_mul : string -> option method.
Variable own_rmul : string -> option method.
Variable subclass_of : string -> string -> bool.

(** X22: what the comment in [Transform.__mul__] warns about. When the left
    operand's own [__mul__] answers [NotImplemented] and the right operand
    keeps the base [__rmul__], the product is [ChainTransform([a, b])] for
    operands of different classes, but [TypeError] for two operands of one
    class, for which Python does not try the reflected method. *)
Theorem not_implemented_from_left (a b : Transform) (m : method) :
  own_mul (class_of a) = Some m ->
  m a b = NotImplemented ->
  own_rmul (class_of b) = None ->
  mul own_mul own_rmul subclass_of a b
  = if String.eqb (class_of a) (class_of b)
    then Raised TypeError
    else Value (ChainTransform [a; b]).
Proof.
  intros Hm Hni Hr. unfold mul, lookup_mul, lookup_rmul.
  rewrite Hm, Hni, Hr. unfold Transform___rmul__.
  destruct (String.eqb (class_of a) (class_of b)); [done|].
  by destruct (subclass_of (class_of b) (class_of a)).
Qed.

End MoreComposition.

Section MoreCompositionExamples.
Import Transforms Samples.

Lemma not_implemented_from_left_witness :
  mul sample_declining_mul sample_own_rmul sample_subclass_of declining translateB
  = (if String.eqb (class_of declining) (class_of translateB)
     then Raised TypeError
     else Value (ChainTransform [declining; translateB]))
  /\ mul sample_declining_mul sample_own_rmul sample_subclass_of declining declining
     = (if String.eqb (class_of declining) (class_of declining)
        then Raised TypeError
        else Value (ChainTransform [declining; declining])).
Proof.
  split.
  - apply (not_implemented_from_left sample_declining_mul sample_own_rmul
             sample_subclass_of declining translateB (fun _ _ => NotImplemented));
      reflexivity.
  - apply (not_implemented_from_left sample_declining_mul sample_own_rmul
             sample_subclass_of declining declining (fun _ _ => NotImplemented));
      reflexivity.
Defined.

(** The two outcomes on the samples. *)
Example declining_products :
  mul sample_declining_mul sample_own_rmul sample_subclass_of declining translateB
  = Value (ChainTransform [declining; translateB])
  /\ mul sample_declining_mul sample_own_rmul sample_subclass_of declining declining
     = Raised TypeError.
Proof. split; reflexivity. Qed.

End MoreCompositionExamples.

Section ProtocolRulesFacts.
Import Transforms ProtocolRules Samples.

(** The sample table with the declining class follows the protocol. *)
Lemma sample_follows_protocol :
  follows_protocol sample_declining_mul sample_own_rmul.
Proof.
  split.
  - intros c m a b e Hm. unfold sample_declining_mul in Hm.
    destruct (String.eqb c "ShyTransform"); [|discriminate].
    by injection Hm as <-.
  - intros c m a b Hm. unfold sample_own_rmul in Hm.
    destruct (String.eqb c "NullTransform"); [|discriminate].
    injection Hm as <-. by eexists.
Qed.


End ProtocolRulesFacts.
